(** * multi-city-weather-workflow: a shallow embedding and its properties

    The development follows [src/mastra/workflows/multi-city-weather-workflow.ts]:
    the weather-code decoder, the weather-fetch step, the activity recommender,
    the nested per-city workflow and the destination scorer.  The step inlined
    in the nested workflow repeats the body of [fetchCityWeather] on the city
    it is handed, so one definition stands for both.  [createStep],
    [createWorkflow] and [foreach] belong to the workflow library and are not
    modelled; a step is its [execute] function.

    Modelling conventions.
    - A JavaScript string is a [string] of bytes (UTF-8).  The only string
      operations of the source are concatenation, [toLowerCase], [includes],
      [match] and [encodeURIComponent]; the keywords searched for are ASCII, and
      no character outside ASCII lower-cases to a sequence containing one of
      them, so lower-casing the ASCII letters only gives the same answers.
    - A JavaScript number is [NaN] or an exact decimal [Dec m s] standing for
      [m / 10^s].  The rounding of binary64 and the infinities are not part of
      the model; the integers the scorer adds up are kept in [Z].
    - [await fetch(..)] followed by [await response.json()] is one node of an
      interaction tree ([io]); the body arrives at the type the source casts
      it to, or the request fails and the exception propagates. *)

From Stdlib Require Import ZArith Ascii String.
From stdpp Require Import base list gmap strings sorting.

Local Open Scope Z_scope.

(** ** Strings *)

Module JsString.

Definition lower_char (c : ascii) : ascii :=
  let n := N_of_ascii c in
  if ((65 <=? n) && (n <=? 90))%N then ascii_of_N (n + 32) else c.

Fixpoint toLowerCase (s : string) : string :=
  match s with
  | EmptyString => EmptyString
  | String c s' => String (lower_char c) (toLowerCase s')
  end.

(** [startsWith p s]: [p] occurs in [s] at index 0. *)
Fixpoint startsWith (p s : string) : bool :=
  match p, s with
  | EmptyString, _ => true
  | String a p', String b s' => Ascii.eqb a b && startsWith p' s'
  | String _ _, EmptyString => false
  end.

(** [s.includes(kw)] *)
Fixpoint includes (s kw : string) : bool :=
  startsWith kw s ||
  match s with
  | EmptyString => false
  | String _ s' => includes s' kw
  end.

(** The first [n] characters of [s]. *)
Fixpoint take (n : nat) (s : string) : string :=
  match n, s with
  | S n', String c s' => String c (take n' s')
  | _, _ => EmptyString
  end.

Fixpoint drop (n : nat) (s : string) : string :=
  match n, s with
  | S n', String _ s' => drop n' s'
  | _, _ => s
  end.

Fixpoint repeat (c : ascii) (n : nat) : string :=
  match n with
  | O => EmptyString
  | S n' => String c (repeat c n')
  end.

(** Truthiness of a string value: only the empty string is falsy. *)
Definition truthy (s : string) : bool :=
  match s with
  | EmptyString => false
  | String _ _ => true
  end.

Definition hex_digit (n : N) : ascii :=
  if (n <? 10)%N then ascii_of_N (48 + n) else ascii_of_N (55 + n).

(** The characters [encodeURIComponent] leaves alone:
    letters, digits and [- _ . ! ~ * ' ( )]. *)
Definition uri_unreserved (c : ascii) : bool :=
  let n := N_of_ascii c in
  (((65 <=? n) && (n <=? 90)) || ((97 <=? n) && (n <=? 122)) ||
   ((48 <=? n) && (n <=? 57)) ||
   (n =? 45) || (n =? 95) || (n =? 46) || (n =? 33) || (n =? 126) ||
   (n =? 42) || (n =? 39) || (n =? 40) || (n =? 41))%N.

Fixpoint encodeURIComponent (s : string) : string :=
  match s with
  | EmptyString => EmptyString
  | String c s' =>
      if uri_unreserved c then String c (encodeURIComponent s')
      else
        let n := N_of_ascii c in
        String "%" (String (hex_digit (n / 16)) (String (hex_digit (n mod 16))
          (encodeURIComponent s')))
  end.

End JsString.

(** ** Regular expressions

    A backtracking matcher for the fragment of the pattern language the source
    uses: literals, [\d], sequencing, the greedy quantifiers [?] and [+], and
    numbered capture groups.  Alternatives are tried in the order of the
    ECMAScript matcher: a quantifier first tries one more iteration, and falls
    back to the continuation when that fails. *)

Module Regex.

Inductive regex : Type :=
| Chr (c : ascii)
| Digit
| Seq (r1 r2 : regex)
| Opt (r : regex)
| Plus (r : regex)
| Capture (i : nat) (r : regex).

Definition is_digit (c : ascii) : bool :=
  let n := N_of_ascii c in ((48 <=? n) && (n <=? 57))%N.

(** The text consumed between the suffix [s] and its suffix [s']. *)
Definition consumed (s s' : string) : string :=
  JsString.take (String.length s - String.length s')%nat s.

(** The loop of a greedy [+]: one iteration by [m], then as many more as
    possible, then the continuation.  The fuel exceeds the length of the
    string, so it only runs out on iterations that consume nothing. *)
Fixpoint plus_iter {R : Type}
    (m : string → gmap nat string → (string → gmap nat string → option R) → option R)
    (k : string → gmap nat string → option R)
    (fuel : nat) (s : string) (caps : gmap nat string) : option R :=
  match fuel with
  | O => None
  | S fuel' =>
      m s caps (λ s' caps',
        match plus_iter m k fuel' s' caps' with
        | Some x => Some x
        | None => k s' caps'
        end)
  end.

Fixpoint rmatch {R : Type} (r : regex) (s : string) (caps : gmap nat string)
    (k : string → gmap nat string → option R) {struct r} : option R :=
  match r with
  | Chr c =>
      match s with
      | String a s' => if Ascii.eqb a c then k s' caps else None
      | EmptyString => None
      end
  | Digit =>
      match s with
      | String a s' => if is_digit a then k s' caps else None
      | EmptyString => None
      end
  | Seq r1 r2 => rmatch r1 s caps (λ s' caps', rmatch r2 s' caps' k)
  | Opt r1 =>
      match rmatch r1 s caps k with
      | Some x => Some x
      | None => k s caps
      end
  | Plus r1 => plus_iter (rmatch r1) k (S (String.length s)) s caps
  | Capture i r1 =>
      rmatch r1 s caps (λ s' caps', k s' (<[i := consumed s s']> caps'))
  end.

(** [RegExp.prototype.exec] without the [g] flag: the match at the smallest
    start index; key 0 holds the whole match, key [i] the [i]-th group. *)
Fixpoint exec (r : regex) (s : string) : option (gmap nat string) :=
  match rmatch r s ∅ (λ s' caps, Some (<[0%nat := consumed s s']> caps)) with
  | Some m => Some m
  | None =>
      match s with
      | EmptyString => None
      | String _ s' => exec r s'
      end
  end.

End Regex.

(** ** Numbers *)

Inductive number : Type :=
| NaN
| Dec (m : Z) (s : nat).

Module Number.

Definition of_Z (z : Z) : number := Dec z 0.

(** Three-way comparison of the values; [None] when an operand is [NaN]. *)
Definition compare (a b : number) : option comparison :=
  match a, b with
  | Dec m1 s1, Dec m2 s2 => Some (m1 * 10 ^ Z.of_nat s2 ?= m2 * 10 ^ Z.of_nat s1)
  | _, _ => None
  end.

Definition ltb (a b : number) : bool :=
  match compare a b with Some Lt => true | _ => false end.
Definition gtb (a b : number) : bool :=
  match compare a b with Some Gt => true | _ => false end.
Definition leb (a b : number) : bool :=
  match compare a b with Some Lt | Some Eq => true | _ => false end.
Definition geb (a b : number) : bool :=
  match compare a b with Some Gt | Some Eq => true | _ => false end.
Definition eqb (a b : number) : bool :=
  match compare a b with Some Eq => true | _ => false end.

(** Cancel the trailing zeros of the fraction: [m / 10^s] with [s] least. *)
Fixpoint normalize (m : Z) (s : nat) : Z * nat :=
  match s with
  | O => (m, O)
  | S s' => if m mod 10 =? 0 then normalize (m / 10) s' else (m, s)
  end.

Definition norm (x : number) : number :=
  match x with
  | NaN => NaN
  | Dec m s => let '(m', s') := normalize m s in Dec m' s'
  end.

Definition digit_char (d : Z) : ascii := ascii_of_N (48 + Z.to_N d).

Definition digit_val (c : ascii) : Z := Z.of_N (N_of_ascii c) - 48.

(** The decimal digits of [n >= 0], most significant first. *)
Fixpoint digits_fuel (fuel : nat) (n : Z) : string :=
  match fuel with
  | O => EmptyString
  | S fuel' =>
      if n <? 10 then String (digit_char n) EmptyString
      else digits_fuel fuel' (n / 10) +:+ String (digit_char (n mod 10)) EmptyString
  end.

Definition digits (n : Z) : string := digits_fuel (S (Z.to_nat (Z.log2 n))) n.

(** The value of a string of digits. *)
Fixpoint digits_value (acc : Z) (s : string) : Z :=
  match s with
  | EmptyString => acc
  | String c s' => digits_value (10 * acc + digit_val c) s'
  end.

(** Split off the zeros at the end of a positive integer: [q = p * 10^z]. *)
Fixpoint strip_zeros (fuel : nat) (q : Z) : Z * nat :=
  match fuel with
  | O => (q, O)
  | S fuel' =>
      if q mod 10 =? 0 then let '(p, z) := strip_zeros fuel' (q / 10) in (p, S z)
      else (q, O)
  end.

(** [Number::toString] for a positive value [m / 10^s]: with [ds] the [k]
    significant digits and [n] the exponent for which the value is
    [0.ds * 10^n], the four cases of the standard. *)
Definition positive_to_string (m : Z) (s : nat) : string :=
  let '(m1, s1) := normalize m s in
  let '(q, z) :=
    match s1 with
    | O => strip_zeros (S (Z.to_nat (Z.log2 m1))) m1
    | S _ => (m1, O)
    end in
  let ds := digits q in
  let k := Z.of_nat (String.length ds) in
  let n := k + Z.of_nat z - Z.of_nat s1 in
  if (k <=? n) && (n <=? 21) then
    ds +:+ JsString.repeat "0" (Z.to_nat (n - k))
  else if (0 <? n) && (n <=? 21) then
    JsString.take (Z.to_nat n) ds +:+ "." +:+ JsString.drop (Z.to_nat n) ds
  else if (-6 <? n) && (n <=? 0) then
    "0." +:+ JsString.repeat "0" (Z.to_nat (- n)) +:+ ds
  else
    let e := n - 1 in
    let sign := if e <? 0 then "-" else "+" in
    match ds with
    | String d EmptyString => String d ("e" +:+ sign +:+ digits (Z.abs e))
    | String d rest => String d ("." +:+ rest +:+ "e" +:+ sign +:+ digits (Z.abs e))
    | EmptyString => EmptyString
    end.

(** [String(x)], as a template literal renders a number. *)
Definition to_string (x : number) : string :=
  match x with
  | NaN => "NaN"
  | Dec m s =>
      if m =? 0 then "0"
      else if m <? 0 then "-" +:+ positive_to_string (- m) s
      else positive_to_string m s
  end.

(** The longest prefix of digits, and what follows it. *)
Fixpoint span_digits (s : string) : string * string :=
  match s with
  | String c s' =>
      if Regex.is_digit c then let '(ds, rest) := span_digits s' in (String c ds, rest)
      else (EmptyString, s)
  | EmptyString => (EmptyString, EmptyString)
  end.

(** An unsigned decimal literal at the head of [body]: digits, and possibly a
    point and digits, with at least one digit in all.  The result is the
    mantissa and the number of fraction digits. *)
Definition parse_digits (body : string) : option (Z * nat) :=
  let '(ip, rest) := span_digits body in
  let fp :=
    match rest with
    | String c r => if Ascii.eqb c "." then fst (span_digits r) else EmptyString
    | EmptyString => EmptyString
    end in
  match ip, fp with
  | EmptyString, EmptyString => None
  | _, _ => Some (digits_value (digits_value 0 ip) fp, String.length fp)
  end.

(** [parseFloat] on the prefix grammar [sign? digits* (. digits* )?] with at
    least one digit; [NaN] when the string does not start that way.  Leading
    white space, exponent parts and [Infinity] are not read: the scorer only
    passes the capture of its pattern, which has none of them. *)
Definition parseFloat (str : string) : number :=
  let '(neg, body) :=
    match str with
    | String c r =>
        if Ascii.eqb c "-" then (true, r)
        else if Ascii.eqb c "+" then (false, r)
        else (false, str)
    | EmptyString => (false, str)
    end in
  match parse_digits body with
  | Some (v, sc) => Dec (if neg then - v else v) sc
  | None => NaN
  end.

End Number.

(** ** Errors and effects *)

Inductive exn : Type :=
| TypeError (message : string)
| FetchError (reason : string).

Inductive result (A : Type) : Type :=
| Ok (a : A)
| Err (e : exn).
Arguments Ok {A} a.
Arguments Err {A} e.

(** What awaiting a request and its JSON body gives: the body, at the type the
    source casts it to, or a rejection. *)
Inductive outcome (A : Type) : Type :=
| Resolved (a : A)
| Rejected (reason : string).
Arguments Resolved {A} a.
Arguments Rejected {A} reason.

Module GeoResult.
Record t : Type := { latitude : number; longitude : number; name : string }.
End GeoResult.

Module GeocodingData.
Record t : Type := { results : option (list GeoResult.t) }.
End GeocodingData.

Module Current.
Record t : Type :=
  { temperature_2m : number; relative_humidity_2m : number; weathercode : number }.
End Current.

Module ForecastData.
Record t : Type := { current : Current.t }.
End ForecastData.

(** An asynchronous computation: it returns, throws, or awaits one of the two
    services and goes on with the answer. *)
Inductive io (A : Type) : Type :=
| Return (a : A)
| Throw (e : exn)
| FetchGeocoding (url : string) (k : outcome GeocodingData.t → io A)
| FetchForecast (url : string) (k : outcome ForecastData.t → io A).
Arguments Return {A} a.
Arguments Throw {A} e.
Arguments FetchGeocoding {A} url k.
Arguments FetchForecast {A} url k.

Fixpoint bind {A B : Type} (p : io A) (f : A → io B) : io B :=
  match p with
  | Return a => f a
  | Throw e => Throw e
  | FetchGeocoding url k => FetchGeocoding url (λ r, bind (k r) f)
  | FetchForecast url k => FetchForecast url (λ r, bind (k r) f)
  end.

(** The two services, as functions of the requested URL. *)
Record world : Type :=
  { geocoding_api : string → outcome GeocodingData.t;
    forecast_api : string → outcome ForecastData.t }.

(** Run a computation against the services: the URLs requested, in order, and
    the final result. *)
Fixpoint run {A : Type} (w : world) (p : io A) : list string * result A :=
  match p with
  | Return a => ([], Ok a)
  | Throw e => ([], Err e)
  | FetchGeocoding url k =>
      let '(trace, r) := run w (k (geocoding_api w url)) in (url :: trace, r)
  | FetchForecast url k =>
      let '(trace, r) := run w (k (forecast_api w url)) in (url :: trace, r)
  end.

(** ** Data model *)

Module CityWeather.
Record t : Type :=
  { city : string; temperature : number; condition : string; humidity : number }.
End CityWeather.

Module ActivityRecommendation.
Record t : Type :=
  { city : string; activities : list string; weatherSummary : string }.
End ActivityRecommendation.

Module ScoredCity.
Record t : Type :=
  { city : string; score : Z; weatherSummary : string; topActivity : string }.
End ScoredCity.

Module Report.
Record t : Type :=
  { bestCity : string; reason : string; allCities : list ScoredCity.t }.
End Report.

(** [v || d] for a string-or-undefined [v]. *)
Definition or_else (v : option string) (d : string) : string :=
  match v with
  | Some s => if JsString.truthy s then s else d
  | None => d
  end.

(** ** The condition decoder *)

(** The keys of an object literal are strings; [conditions[code]] looks the
    code up under its rendering. *)
Definition conditions : gmap string string :=
  list_to_map
    [ ("0", "Clear sky");
      ("1", "Mainly clear");
      ("2", "Partly cloudy");
      ("3", "Overcast");
      ("45", "Foggy");
      ("51", "Light drizzle");
      ("61", "Slight rain");
      ("63", "Moderate rain");
      ("65", "Heavy rain");
      ("71", "Slight snow");
      ("95", "Thunderstorm") ].

Definition getWeatherCondition (code : number) : string :=
  or_else (conditions !! Number.to_string code) "Unknown".

(** ** The weather-fetch step *)

Definition geocodingUrl (city : string) : string :=
  "https://geocoding-api.open-meteo.com/v1/search?name=" +:+
  JsString.encodeURIComponent city +:+ "&count=1".

Definition weatherUrl (latitude longitude : number) : string :=
  "https://api.open-meteo.com/v1/forecast?latitude=" +:+ Number.to_string latitude +:+
  "&longitude=" +:+ Number.to_string longitude +:+
  "&current=temperature_2m,relative_humidity_2m,weathercode".

(** [geocodingData.results?.[0]] *)
Definition first_result (geocodingData : GeocodingData.t) : option GeoResult.t :=
  match GeocodingData.results geocodingData with
  | Some rs => rs !! 0%nat
  | None => None
  end.

Definition fetchCityWeather (city : string) : io CityWeather.t :=
  FetchGeocoding (geocodingUrl city) (λ geocodingResponse,
    match geocodingResponse with
    | Rejected reason => Throw (FetchError reason)
    | Resolved geocodingData =>
        match first_result geocodingData with
        | None =>
            Return {| CityWeather.city := city;
                      CityWeather.temperature := Number.of_Z 0;
                      CityWeather.condition := "Location not found";
                      CityWeather.humidity := Number.of_Z 0 |}
        | Some g =>
            FetchForecast
              (weatherUrl (GeoResult.latitude g) (GeoResult.longitude g))
              (λ response,
                 match response with
                 | Rejected reason => Throw (FetchError reason)
                 | Resolved data =>
                     let cur := ForecastData.current data in
                     Return {| CityWeather.city := GeoResult.name g;
                               CityWeather.temperature := Current.temperature_2m cur;
                               CityWeather.condition :=
                                 getWeatherCondition (Current.weathercode cur);
                               CityWeather.humidity := Current.relative_humidity_2m cur |}
                 end)
        end
    end).

(** ** The activity recommender *)

(** The first chain of tests: what the temperature pushes on the empty array. *)
Definition temperature_activities (temperature : number) : list string :=
  let activities : list string := [] in
  if Number.gtb temperature (Number.of_Z 25) then
    activities ++ ["🏖️ Beach or pool visit"; "🍦 Get ice cream"]
  else if Number.gtb temperature (Number.of_Z 15) then
    activities ++ ["🚴 Cycling"; "🥾 Hiking"; "📸 Outdoor photography"]
  else if Number.gtb temperature (Number.of_Z 5) then
    activities ++ ["☕ Cozy café visit"; "🎨 Museum tour"]
  else
    activities ++ ["⛷️ Winter sports"; "🏠 Indoor activities"].

(** The second chain: rain empties the array before pushing, clear or sunny
    pushes on what is there. *)
Definition condition_adjustments (condition : string) (activities : list string)
    : list string :=
  if JsString.includes (JsString.toLowerCase condition) "rain" then
    let activities : list string := [] in
    activities ++ ["🎬 Movie theater"; "📚 Library visit"; "🎳 Bowling"]
  else if JsString.includes (JsString.toLowerCase condition) "clear"
          || JsString.includes (JsString.toLowerCase condition) "sunny" then
    activities ++ ["🌳 Park picnic"; "🌅 Sunset watching"]
  else activities.

Definition weather_summary (temperature : number) (condition : string)
    (humidity : number) : string :=
  Number.to_string temperature +:+ "°C, " +:+ condition +:+ ", " +:+
  Number.to_string humidity +:+ "% humidity".

Definition generateActivityRecommendations (inputData : CityWeather.t)
    : ActivityRecommendation.t :=
  let city := CityWeather.city inputData in
  let temperature := CityWeather.temperature inputData in
  let condition := CityWeather.condition inputData in
  let humidity := CityWeather.humidity inputData in
  let activities := temperature_activities temperature in
  let activities := condition_adjustments condition activities in
  let weatherSummary := weather_summary temperature condition humidity in
  {| ActivityRecommendation.city := city;
     ActivityRecommendation.activities := activities;
     ActivityRecommendation.weatherSummary := weatherSummary |}.

(** The nested workflow: fetch the weather of one city, then recommend. *)
Definition processSingleCityWorkflow (inputData : string)
    : io ActivityRecommendation.t :=
  bind (fetchCityWeather inputData) (λ w, Return (generateActivityRecommendations w)).

(** ** The destination scorer *)

(** [/(-?\d+(?:\.\d+)?)/] *)
Definition temperature_pattern : Regex.regex :=
  Regex.Capture 1
    (Regex.Seq (Regex.Opt (Regex.Chr "-"))
       (Regex.Seq (Regex.Plus Regex.Digit)
          (Regex.Opt (Regex.Seq (Regex.Chr ".") (Regex.Plus Regex.Digit))))).

(** [tempMatch ? parseFloat(tempMatch[1]) : 20] *)
Definition parsed_temperature (weatherSummary : string) : number :=
  match Regex.exec temperature_pattern weatherSummary with
  | Some tempMatch =>
      match tempMatch !! 1%nat with
      | Some text => Number.parseFloat text
      | None => NaN
      end
  | None => Number.of_Z 20
  end.

Definition scoreCity (rec : ActivityRecommendation.t) : ScoredCity.t :=
  let summary := ActivityRecommendation.weatherSummary rec in
  let score := 50 in
  let temp := parsed_temperature summary in
  let score :=
    if Number.geb temp (Number.of_Z 18) && Number.leb temp (Number.of_Z 25) then score + 30
    else if Number.geb temp (Number.of_Z 15) && Number.leb temp (Number.of_Z 28) then score + 20
    else if Number.ltb temp (Number.of_Z 5) || Number.gtb temp (Number.of_Z 35) then score - 20
    else score in
  let score :=
    if JsString.includes (JsString.toLowerCase summary) "clear" then score + 20
    else if JsString.includes (JsString.toLowerCase summary) "rain" then score - 15
    else if JsString.includes (JsString.toLowerCase summary) "cloud" then score + 5
    else score in
  {| ScoredCity.city := ActivityRecommendation.city rec;
     ScoredCity.score := score;
     ScoredCity.weatherSummary := summary;
     ScoredCity.topActivity :=
       or_else (ActivityRecommendation.activities rec !! 0%nat) "Explore the city" |}.

Arguments scoreCity : simpl never.

(** [Array.prototype.sort] with a comparison function: the standard fixes the
    result for a consistent comparison as the stable sorted order.  Inserting
    from the right, an element goes before the first one it does not compare
    greater than, so it stays ahead of its equals that came after it. *)
Fixpoint insert_by {A : Type} (cmp : A → A → Z) (x : A) (l : list A) : list A :=
  match l with
  | [] => [x]
  | y :: l' => if cmp x y <=? 0 then x :: y :: l' else y :: insert_by cmp x l'
  end.

Definition sort {A : Type} (cmp : A → A → Z) (l : list A) : list A :=
  foldr (insert_by cmp) [] l.

Definition by_score_descending (a b : ScoredCity.t) : Z :=
  ScoredCity.score b - ScoredCity.score a.

Definition findBestDestination (cityRecommendations : list ActivityRecommendation.t)
    : result Report.t :=
  let scoredCities := scoreCity <$> cityRecommendations in
  let scoredCities := sort by_score_descending scoredCities in
  match scoredCities !! 0%nat with
  | None => Err (TypeError "Cannot read properties of undefined (reading 'city')")
  | Some best =>
      Ok {| Report.bestCity := ScoredCity.city best;
            Report.reason :=
              ScoredCity.city best +:+ " has the best weather conditions with " +:+
              ScoredCity.weatherSummary best +:+ ". Top recommended activity: " +:+
              ScoredCity.topActivity best;
            Report.allCities := scoredCities |}
  end.

(** ** The specification's wording

    Definitions written after the text of the specification; the theorems
    below compare them with the embedding of the code. *)

Module Spec.

(** +30 in [18,25]; else +20 in [15,28]; else -20 below 5 or above 35; else 0. *)
Definition temperature_adjustment (temp : number) : Z :=
  if Number.leb (Number.of_Z 18) temp && Number.leb temp (Number.of_Z 25) then 30
  else if Number.leb (Number.of_Z 15) temp && Number.leb temp (Number.of_Z 28) then 20
  else if Number.ltb temp (Number.of_Z 5) || Number.ltb (Number.of_Z 35) temp then -20
  else 0.

(** The keywords in the order they are checked, each with its adjustment. *)
Definition condition_keywords : list (string * Z) :=
  [("clear", 20); ("rain", -15); ("cloud", 5)].

(** The first keyword the lower-cased summary contains wins. *)
Definition condition_adjustment (weatherSummary : string) : Z :=
  match
    List.find (λ kw, JsString.includes (JsString.toLowerCase weatherSummary) (fst kw))
      condition_keywords
  with
  | Some kw => snd kw
  | None => 0
  end.

(** An unsigned decimal number at the head of [s]: one or more digits, then
    possibly a point and one or more digits.  The result is the mantissa and
    the number of fraction digits. *)
Definition read_unsigned (s : string) : option (Z * nat) :=
  let '(ip, rest) := Number.span_digits s in
  match ip with
  | EmptyString => None
  | _ =>
      match rest with
      | String c r =>
          if Ascii.eqb c "." then
            let fp := fst (Number.span_digits r) in
            Some (Number.digits_value 0 (ip +:+ fp), String.length fp)
          else Some (Number.digits_value 0 ip, O)
      | EmptyString => Some (Number.digits_value 0 ip, O)
      end
  end.

(** A signed decimal number at the head of [s]. *)
Definition read_number (s : string) : option number :=
  let unsigned :=
    match read_unsigned s with
    | Some (m, sc) => Some (Dec m sc)
    | None => None
    end in
  match s with
  | String c r =>
      if Ascii.eqb c "-" then
        match read_unsigned r with
        | Some (m, sc) => Some (Dec (- m) sc)
        | None => None
        end
      else unsigned
  | EmptyString => unsigned
  end.

(** The first signed decimal number found in [s], scanning from the left. *)
Fixpoint first_number (s : string) : option number :=
  match read_number s with
  | Some x => Some x
  | None =>
      match s with
      | EmptyString => None
      | String _ s' => first_number s'
      end
  end.

(** The extracted temperature, 20 when the summary holds no number. *)
Definition extracted_temperature (weatherSummary : string) : number :=
  match first_number weatherSummary with
  | Some x => x
  | None => Number.of_Z 20
  end.

(** The score of a summary: 50 plus the two adjustments. *)
Definition score (weatherSummary : string) : Z :=
  50 + temperature_adjustment (extracted_temperature weatherSummary)
     + condition_adjustment weatherSummary.

(** The variant that is handed the raw temperature next to the summary. *)
Definition score_from_raw (temperature : number) (weatherSummary : string) : Z :=
  50 + temperature_adjustment temperature + condition_adjustment weatherSummary.

Definition hot_set : list string := ["🏖️ Beach or pool visit"; "🍦 Get ice cream"].
Definition mild_set : list string := ["🚴 Cycling"; "🥾 Hiking"; "📸 Outdoor photography"].
Definition cool_set : list string := ["☕ Cozy café visit"; "🎨 Museum tour"].
Definition cold_set : list string := ["⛷️ Winter sports"; "🏠 Indoor activities"].
Definition fair_pair : list string := ["🌳 Park picnic"; "🌅 Sunset watching"].

(** Digits, and possibly a point followed by digits, with nothing after. *)
Definition plain_unsigned (body : string) : bool :=
  let '(ip, rest) := Number.span_digits body in
  JsString.truthy ip &&
  match rest with
  | EmptyString => true
  | String c r =>
      let '(fp, rest') := Number.span_digits r in
      Ascii.eqb c "." && JsString.truthy fp && negb (JsString.truthy rest')
  end.

(** The rendering is in plain decimal notation: an optional minus sign and an
    unsigned decimal, without exponent part. *)
Definition plain_notation (str : string) : bool :=
  match str with
  | String c r => if Ascii.eqb c "-" then plain_unsigned r else plain_unsigned str
  | EmptyString => false
  end.

(** The eleven codes of the table. *)
Definition table_codes : list Z := [0; 1; 2; 3; 45; 51; 61; 63; 65; 71; 95].

Definition table_label (code : Z) : string :=
  if code =? 0 then "Clear sky" else if code =? 1 then "Mainly clear"
  else if code =? 2 then "Partly cloudy" else if code =? 3 then "Overcast"
  else if code =? 45 then "Foggy" else if code =? 51 then "Light drizzle"
  else if code =? 61 then "Slight rain" else if code =? 63 then "Moderate rain"
  else if code =? 65 then "Heavy rain" else if code =? 71 then "Slight snow"
  else if code =? 95 then "Thunderstorm" else "Unknown".

End Spec.

(** ** Helper definitions for the proofs *)

Fixpoint all_digits (s : string) : bool :=
  match s with
  | EmptyString => true
  | String c s' => Regex.is_digit c && all_digits s'
  end.

(** [s] does not start with a digit. *)
Definition no_digit_ahead (s : string) : Prop :=
  match s with
  | EmptyString => True
  | String c _ => Regex.is_digit c = false
  end.

(** Where an unsigned number at the head of [s] ends: what is left of [s]. *)
Definition unsigned_end (s : string) : option string :=
  let '(ip, rest) := Number.span_digits s in
  match ip with
  | EmptyString => None
  | _ =>
      match rest with
      | String c r =>
          if Ascii.eqb c "." then
            let '(fp, rest') := Number.span_digits r in
            match fp with
            | EmptyString => Some rest
            | _ => Some rest'
            end
          else Some rest
      | EmptyString => Some rest
      end
  end.

Definition number_end (s : string) : option string :=
  match s with
  | String c r => if Ascii.eqb c "-" then unsigned_end r else unsigned_end s
  | EmptyString => None
  end.

(** The pattern inside the capture group: [-?\d+(?:\.\d+)?]. *)
Definition number_body : Regex.regex :=
  Regex.Seq (Regex.Opt (Regex.Chr "-"))
    (Regex.Seq (Regex.Plus Regex.Digit)
       (Regex.Opt (Regex.Seq (Regex.Chr ".") (Regex.Plus Regex.Digit)))).

(** [x] occurs in [s]. *)
Fixpoint occurs (x : ascii) (s : string) : bool :=
  match s with
  | EmptyString => false
  | String c s' => Ascii.eqb x c || occurs x s'
  end.

(** Every character of [s] passes [P]. *)
Fixpoint all_chars (P : ascii → bool) (s : string) : bool :=
  match s with
  | EmptyString => true
  | String c s' => P c && all_chars P s'
  end.


(** The characters a rendered number is made of. *)
Definition numeric_char (c : ascii) : bool :=
  Regex.is_digit c || Ascii.eqb c "." || Ascii.eqb c "-" || Ascii.eqb c "+" ||
  Ascii.eqb c "e" || Ascii.eqb c "N" || Ascii.eqb c "a".

(** The characters of an encoded URI component. *)
Definition uri_char (c : ascii) : bool :=
  JsString.uri_unreserved c || Ascii.eqb c "%".


(** A continuation that never fails. *)
Definition total {R : Type} (k : string → gmap nat string → option R) : Prop :=
  ∀ s caps, is_Some (k s caps).

Definition descending (a b : ScoredCity.t) : Prop :=
  ScoredCity.score b ≤ ScoredCity.score a.

Definition has_score (v : Z) (c : ScoredCity.t) : Prop := ScoredCity.score c = v.

#[global] Instance has_score_dec v c : Decision (has_score v c).
Proof. unfold has_score. apply _. Defined.

(** ** Strings *)

Lemma append_nil_l (s : string) : "" +:+ s = s.
Proof. reflexivity. Qed.

Lemma append_cons (c : ascii) (s t : string) : String c s +:+ t = String c (s +:+ t).
Proof. reflexivity. Qed.

Lemma append_nil_r (s : string) : s +:+ "" = s.
Proof. induction s as [|c s IH]; [done|]. by rewrite append_cons, IH. Qed.

Lemma append_assoc (s t u : string) : (s +:+ t) +:+ u = s +:+ t +:+ u.
Proof. induction s as [|c s IH]; [done|]. by rewrite !append_cons, IH. Qed.

Lemma length_append (s t : string) :
  String.length (s +:+ t) = (String.length s + String.length t)%nat.
Proof. induction s as [|c s IH]; [done|]. rewrite append_cons. simpl. by rewrite IH. Qed.

Lemma take_append (s t : string) : JsString.take (String.length s) (s +:+ t) = s.
Proof. induction s as [|c s IH]; [by destruct t|]. rewrite append_cons. simpl. by rewrite IH. Qed.

Lemma consumed_append (s t : string) : Regex.consumed (s +:+ t) t = s.
Proof.
  unfold Regex.consumed. rewrite length_append.
  replace (String.length s + String.length t - String.length t)%nat
    with (String.length s) by lia.
  apply take_append.
Qed.

(** ** Comparison of numbers *)

Lemma compare_swap (a b : number) :
  Number.compare b a = CompOpp <$> Number.compare a b.
Proof. destruct a, b; simpl; try done. by rewrite Z.compare_antisym. Qed.

Lemma geb_leb (a b : number) : Number.geb a b = Number.leb b a.
Proof.
  unfold Number.geb, Number.leb. rewrite (compare_swap a b).
  by destruct (Number.compare a b) as [[]|].
Qed.

Lemma gtb_ltb (a b : number) : Number.gtb a b = Number.ltb b a.
Proof.
  unfold Number.gtb, Number.ltb. rewrite (compare_swap a b).
  by destruct (Number.compare a b) as [[]|].
Qed.

Lemma gtb_leb_false (a b : number) : Number.gtb a b = true → Number.leb a b = false.
Proof. unfold Number.gtb, Number.leb. by destruct (Number.compare a b) as [[]|]. Qed.

Lemma leb_gtb_false (a b : number) : Number.leb a b = true → Number.gtb a b = false.
Proof. unfold Number.gtb, Number.leb. by destruct (Number.compare a b) as [[]|]. Qed.

Lemma compare_of_Z (m : Z) (s : nat) (z : Z) :
  Number.compare (Dec m s) (Number.of_Z z) = Some (m ?= z * 10 ^ Z.of_nat s).
Proof.
  unfold Number.of_Z, Number.compare. change (Z.of_nat 0) with 0.
  by rewrite Z.pow_0_r, Z.mul_1_r.
Qed.

Lemma gtb_of_Z (m : Z) (s : nat) (z : Z) :
  Number.gtb (Dec m s) (Number.of_Z z) = true ↔ z * 10 ^ Z.of_nat s < m.
Proof.
  unfold Number.gtb. rewrite compare_of_Z.
  destruct (Z.compare_spec m (z * 10 ^ Z.of_nat s)); split; (done || lia).
Qed.

(** A larger bound is exceeded only when the smaller one is. *)
Lemma gtb_mono (a : number) (x y : Z) :
  x ≤ y → Number.gtb a (Number.of_Z y) = true → Number.gtb a (Number.of_Z x) = true.
Proof.
  destruct a as [|m s]; [done|]. rewrite !gtb_of_Z. intros Hxy.
  assert (0 < 10 ^ Z.of_nat s) by (apply Z.pow_pos_nonneg; lia). nia.
Qed.

(** ** The activity recommender *)



(** C5. Without the rain override the activities start with the set of the
    temperature bracket: above 25 the hot set, in (15,25] the mild set, in
    (5,15] the cool set, at most 5 the cold set; the brackets exclude each
    other, and what follows the set is the fair-weather pair or nothing. *)
Theorem recommender_temperature_brackets (w : CityWeather.t) :
  JsString.includes (JsString.toLowerCase (CityWeather.condition w)) "rain" = false →
  let t := CityWeather.temperature w in
  let acts := ActivityRecommendation.activities (generateActivityRecommendations w) in
  ∃ base extra,
    acts = base ++ extra ∧ (extra = [] ∨ extra = Spec.fair_pair) ∧
    (Number.gtb t (Number.of_Z 25) = true → base = Spec.hot_set) ∧
    (Number.gtb t (Number.of_Z 15) = true → Number.leb t (Number.of_Z 25) = true →
     base = Spec.mild_set) ∧
    (Number.gtb t (Number.of_Z 5) = true → Number.leb t (Number.of_Z 15) = true →
     base = Spec.cool_set) ∧
    (Number.leb t (Number.of_Z 5) = true → base = Spec.cold_set) ∧
    (Number.gtb t (Number.of_Z 25) = true → Number.gtb t (Number.of_Z 15) = true) ∧
    (Number.gtb t (Number.of_Z 15) = true → Number.gtb t (Number.of_Z 5) = true) ∧
    (Number.leb t (Number.of_Z 5) = true → Number.gtb t (Number.of_Z 5) = false) ∧
    (Number.leb t (Number.of_Z 15) = true → Number.gtb t (Number.of_Z 15) = false) ∧
    (Number.leb t (Number.of_Z 25) = true → Number.gtb t (Number.of_Z 25) = false).
Proof.
  intros Hrain. simpl. unfold condition_adjustments. rewrite Hrain.
  exists (temperature_activities (CityWeather.temperature w)).
  set (c := JsString.toLowerCase (CityWeather.condition w)).
  exists (if JsString.includes c "clear" || JsString.includes c "sunny"
          then Spec.fair_pair else []).
  split; [|split].
  - destruct (_ || _); [reflexivity|]. symmetry. apply app_nil_r.
  - destruct (_ || _); auto.
  - unfold temperature_activities.
    repeat split; try (apply leb_gtb_false); try (apply (gtb_mono _ _ _); lia).
    + by intros ->.
    + intros H15 H25. apply leb_gtb_false in H25. by rewrite H25, H15.
    + intros H5 H15. apply leb_gtb_false in H15.
      destruct (Number.gtb _ (Number.of_Z 25)) eqn:E25.
      { apply (gtb_mono _ 15 25) in E25; [congruence|lia]. }
      by rewrite H15, H5.
    + intros H5. apply leb_gtb_false in H5.
      destruct (Number.gtb _ (Number.of_Z 25)) eqn:E25.
      { apply (gtb_mono _ 5 25) in E25; [congruence|lia]. }
      destruct (Number.gtb _ (Number.of_Z 15)) eqn:E15.
      { apply (gtb_mono _ 5 15) in E15; [congruence|lia]. }
      by rewrite H5.
Qed.

Lemma recommender_temperature_brackets_witness :
  ∃ base extra,
    ActivityRecommendation.activities
      (generateActivityRecommendations
         {| CityWeather.city := "Rome"; CityWeather.temperature := Dec 25 0;
            CityWeather.condition := "Clear sky"; CityWeather.humidity := Dec 40 0 |})
    = base ++ extra ∧ base = Spec.mild_set.
Proof.
  destruct (recommender_temperature_brackets
              {| CityWeather.city := "Rome"; CityWeather.temperature := Dec 25 0;
                 CityWeather.condition := "Clear sky"; CityWeather.humidity := Dec 40 0 |}
              eq_refl)
    as (base & extra & Hacts & _ & _ & Hmild & _).
  exists base, extra. split; [exact Hacts|]. apply Hmild; reflexivity.
Defined.

(** ** Sorting *)

Section sort.
Context {A : Type} (cmp : A → A → Z).

Lemma insert_by_Permutation (x : A) (l : list A) : insert_by cmp x l ≡ₚ x :: l.
Proof.
  induction l as [|y l IH]; simpl; [done|].
  destruct (cmp x y <=? 0); [done|]. rewrite IH. apply Permutation_swap.
Qed.

Lemma sort_Permutation (l : list A) : sort cmp l ≡ₚ l.
Proof.
  induction l as [|x l IH]; simpl; [done|].
  by rewrite insert_by_Permutation, IH.
Qed.

Lemma sort_length (l : list A) : length (sort cmp l) = length l.
Proof. by rewrite sort_Permutation. Qed.

(** An element passes only elements it compares greater than, so a filter
    that keeps elements comparing equal does not see the insertion move. *)
Lemma insert_by_filter (P : A → Prop) `{!∀ a, Decision (P a)} (x : A) (l : list A) :
  (∀ a b, P a → P b → cmp a b = 0) →
  filter P (insert_by cmp x l) = filter P (x :: l).
Proof.
  intros Heq. induction l as [|y l IH]; simpl; [done|].
  destruct (cmp x y <=? 0) eqn:E; [done|].
  rewrite (filter_cons _ y (insert_by _ _ _)), IH, !filter_cons.
  destruct (decide (P x)) as [Hx|]; [|done].
  destruct (decide (P y)) as [Hy|]; [|done].
  specialize (Heq x y Hx Hy). lia.
Qed.

Lemma sort_filter (P : A → Prop) `{!∀ a, Decision (P a)} (l : list A) :
  (∀ a b, P a → P b → cmp a b = 0) →
  filter P (sort cmp l) = filter P l.
Proof.
  intros Heq. induction l as [|x l IH]; simpl; [done|].
  rewrite insert_by_filter by done. by rewrite !filter_cons, IH.
Qed.

End sort.

Lemma insert_by_score_sorted (x : ScoredCity.t) (l : list ScoredCity.t) :
  StronglySorted descending l →
  StronglySorted descending (insert_by by_score_descending x l).
Proof.
  induction 1 as [|y l Hl IH Hy]; simpl.
  - repeat constructor.
  - unfold by_score_descending at 1.
    destruct (_ <=? 0) eqn:E.
    + apply Z.leb_le in E. constructor; [by constructor|].
      constructor; [unfold descending; lia|].
      eapply Forall_impl; [exact Hy|]. unfold descending. intros; lia.
    + apply Z.leb_gt in E. constructor; [done|].
      rewrite insert_by_Permutation. constructor; [unfold descending; lia|done].
Qed.

Lemma sort_by_score_sorted (l : list ScoredCity.t) :
  StronglySorted descending (sort by_score_descending l).
Proof.
  induction l as [|x l IH]; simpl; [constructor|].
  by apply insert_by_score_sorted.
Qed.

(** Equal scores keep their input order. *)
Lemma sort_by_score_stable (v : Z) (l : list ScoredCity.t) :
  filter (has_score v) (sort by_score_descending l) = filter (has_score v) l.
Proof.
  apply sort_filter. unfold has_score, by_score_descending. intros; lia.
Qed.

(** The first element that passes a filter splits the list. *)
Lemma filter_head_split {B : Type} (P : B → Prop) `{!∀ a, Decision (P a)}
    (l : list B) (x : B) (rest : list B) :
  filter P l = x :: rest →
  ∃ l1 l2, l = l1 ++ x :: l2 ∧ Forall (λ y, ¬ P y) l1.
Proof.
  induction l as [|y l IH]; [done|].
  rewrite filter_cons. destruct (decide (P y)) as [Hy|Hy].
  - intros [= -> _]. by exists [], l.
  - intros (l1 & l2 & -> & Hl1)%IH. exists (y :: l1), l2. split; [done|].
    by constructor.
Qed.

Lemma fmap_app_cons_inv {B C : Type} (f : B → C) (l : list B) (k1 k2 : list C) (y : C) :
  f <$> l = k1 ++ y :: k2 →
  ∃ l1 x l2, l = l1 ++ x :: l2 ∧ k1 = f <$> l1 ∧ y = f x ∧ k2 = f <$> l2.
Proof.
  intros (l1 & l' & -> & H & ->)%fmap_app_inv.
  symmetry in H. apply fmap_cons_inv in H as (x & l2 & -> & -> & ->).
  by exists l1, x, l2.
Qed.

(** ** The destination scorer: ranking *)

(** C6. On the empty sequence the scorer throws instead of returning a
    report: the sorted array has no first element to read the city from. *)
Theorem scorer_empty_input_fails :
  sort by_score_descending (scoreCity <$> []) !! 0%nat = None ∧
  (∃ message, findBestDestination [] = Err (TypeError message)) ∧
  ∀ report, findBestDestination [] ≠ Ok report.
Proof. split; [done|]. split; [by eexists|done]. Qed.

(** C2. On a non-empty input the scorer returns a report whose [allCities]
    has the length of the input, is sorted by descending score with equal
    scores in input order, and whose [bestCity] is the city of its first
    element: the earliest input record among those of maximal score. *)
Theorem scorer_ranking (recs : list ActivityRecommendation.t) :
  recs ≠ [] →
  ∃ report best rest,
    findBestDestination recs = Ok report ∧
    length (Report.allCities report) = length recs ∧
    StronglySorted descending (Report.allCities report) ∧
    Report.allCities report ≡ₚ scoreCity <$> recs ∧
    (∀ v, filter (has_score v) (Report.allCities report)
          = filter (has_score v) (scoreCity <$> recs)) ∧
    Report.allCities report = best :: rest ∧
    Report.bestCity report = ScoredCity.city best ∧
    ∃ before rec after,
      recs = before ++ rec :: after ∧
      best = scoreCity rec ∧
      Report.bestCity report = ActivityRecommendation.city rec ∧
      Forall (λ r, ScoredCity.score (scoreCity r) < ScoredCity.score best) before ∧
      Forall (λ r, ScoredCity.score (scoreCity r) ≤ ScoredCity.score best) after.
Proof.
  intros Hne. unfold findBestDestination.
  set (scored := scoreCity <$> recs).
  pose proof (sort_Permutation by_score_descending scored) as Hperm.
  pose proof (sort_by_score_sorted scored) as Hsorted.
  pose proof (λ v, sort_by_score_stable v scored) as Hstable.
  destruct (sort by_score_descending scored) as [|best rest] eqn:Hs.
  { apply Permutation_nil_l in Hperm. destruct recs; done. }
  simpl. eexists _, best, rest. split; [reflexivity|]. simpl.
  split; [change (length (best :: rest) = length recs); rewrite Hperm;
          apply length_fmap|].
  do 5 (split; [done|]).
  (* the head passes the filter on its own score, so it heads that filter *)
  specialize (Hstable (ScoredCity.score best)).
  rewrite filter_cons in Hstable.
  destruct (decide (has_score (ScoredCity.score best) best)) as [_|Hn];
    [|by destruct Hn].
  symmetry in Hstable.
  apply filter_head_split in Hstable as (k1 & k2 & Hsplit & Hk1).
  apply fmap_app_cons_inv in Hsplit as (before & rec & after & -> & -> & -> & ->).
  exists before, rec, after. split; [done|]. split; [done|]. split; [done|].
  (* every score is at most the head's *)
  assert (Forall (λ c, ScoredCity.score c ≤ ScoredCity.score (scoreCity rec)) scored)
    as Hmax.
  { rewrite <- Hperm. apply StronglySorted_cons in Hsorted as [Hrest _].
    constructor; [lia|]. exact Hrest. }
  unfold scored in Hmax. rewrite fmap_app, fmap_cons in Hmax.
  apply Forall_app in Hmax as [Hb Ha]. apply Forall_cons in Ha as [_ Ha].
  rewrite Forall_fmap in Hb, Ha, Hk1. split; [|exact Ha].
  rewrite Forall_forall in Hb, Hk1 |- *. intros r Hr.
  specialize (Hb r Hr). specialize (Hk1 r Hr).
  unfold compose, has_score in Hb, Hk1.
  change (ScoredCity.score (scoreCity r) < ScoredCity.score (scoreCity rec)). lia.
Qed.

Lemma scorer_ranking_witness :
  ∃ report best rest,
    findBestDestination
      [ {| ActivityRecommendation.city := "Tokyo";
           ActivityRecommendation.activities := ["🎬 Movie theater"];
           ActivityRecommendation.weatherSummary := "20°C, Heavy rain, 80% humidity" |};
        {| ActivityRecommendation.city := "Paris";
           ActivityRecommendation.activities := ["🚴 Cycling"];
           ActivityRecommendation.weatherSummary := "20°C, Clear sky, 50% humidity" |} ]
    = Ok report ∧
    Report.allCities report = best :: rest ∧
    Report.bestCity report = ScoredCity.city best.
Proof.
  destruct (scorer_ranking
    [ {| ActivityRecommendation.city := "Tokyo";
         ActivityRecommendation.activities := ["🎬 Movie theater"];
         ActivityRecommendation.weatherSummary := "20°C, Heavy rain, 80% humidity" |};
      {| ActivityRecommendation.city := "Paris";
         ActivityRecommendation.activities := ["🚴 Cycling"];
         ActivityRecommendation.weatherSummary := "20°C, Clear sky, 50% humidity" |} ])
    as (report & best & rest & Hrun & _ & _ & _ & _ & Hall & Hbest & _).
  - discriminate.
  - exists report, best, rest. repeat split; assumption.
Defined.

(** ** The weather-fetch step *)

(** C7. When the geocoding answer has no first result (no [results] field or
    an empty array), the step returns the record with the input name, zero
    temperature and humidity and the condition "Location not found"; it is a
    normal return, and the forecast service is never asked. *)
Theorem fetch_location_not_found (city : string) (geocodingData : GeocodingData.t) :
  GeocodingData.results geocodingData = None ∨
  GeocodingData.results geocodingData = Some [] →
  let sentinel :=
    {| CityWeather.city := city;
       CityWeather.temperature := Number.of_Z 0;
       CityWeather.condition := "Location not found";
       CityWeather.humidity := Number.of_Z 0 |} in
  ∃ k,
    fetchCityWeather city = FetchGeocoding (geocodingUrl city) k ∧
    k (Resolved geocodingData) = Return sentinel ∧
    ∀ w : world,
      geocoding_api w (geocodingUrl city) = Resolved geocodingData →
      run w (fetchCityWeather city) = ([geocodingUrl city], Ok sentinel).
Proof.
  intros Hmiss sentinel.
  assert (first_result geocodingData = None) as Hfirst.
  { unfold first_result. by destruct Hmiss as [-> | ->]. }
  eexists. split; [reflexivity|]. split.
  - cbv beta. by rewrite Hfirst.
  - intros w Hw. unfold fetchCityWeather. cbn [run]. rewrite Hw, Hfirst. done.
Qed.

Lemma fetch_location_not_found_witness :
  run {| geocoding_api := λ _, Resolved {| GeocodingData.results := Some [] |};
         forecast_api := λ _, Rejected "unreachable" |}
      (fetchCityWeather "Atlantis")
  = (["https://geocoding-api.open-meteo.com/v1/search?name=Atlantis&count=1"],
     Ok {| CityWeather.city := "Atlantis";
           CityWeather.temperature := Number.of_Z 0;
           CityWeather.condition := "Location not found";
           CityWeather.humidity := Number.of_Z 0 |}).
Proof.
  destruct (fetch_location_not_found "Atlantis"
              {| GeocodingData.results := Some [] |} (or_intror eq_refl))
    as (k & _ & _ & Hrun).
  apply (Hrun {| geocoding_api := λ _, Resolved {| GeocodingData.results := Some [] |};
                 forecast_api := λ _, Rejected "unreachable" |}).
  reflexivity.
Defined.

(** ** Digits *)

Lemma span_digits_cons (c : ascii) (s : string) :
  Number.span_digits (String c s) =
    if Regex.is_digit c
    then (String c (Number.span_digits s).1, (Number.span_digits s).2)
    else (EmptyString, String c s).
Proof. simpl. destruct (Regex.is_digit c); [|done]. by destruct (Number.span_digits s). Qed.

(** The two parts of [span_digits]: the digits in front and the rest, which
    does not start with a digit. *)
Lemma span_digits_spec (s : string) :
  s = (Number.span_digits s).1 +:+ (Number.span_digits s).2 ∧
  all_digits (Number.span_digits s).1 = true ∧
  no_digit_ahead (Number.span_digits s).2.
Proof.
  induction s as [|c s (IH1 & IH2 & IH3)]; [done|].
  rewrite span_digits_cons. destruct (Regex.is_digit c) eqn:E; simpl.
  - rewrite append_cons, <- IH1, E. done.
  - done.
Qed.

Lemma span_digits_app (ds rest : string) :
  all_digits ds = true → no_digit_ahead rest →
  Number.span_digits (ds +:+ rest) = (ds, rest).
Proof.
  intros Hds Hrest. induction ds as [|c ds IH].
  - rewrite append_nil_l. destruct rest as [|c rest]; [done|].
    rewrite span_digits_cons. simpl in Hrest. by rewrite Hrest.
  - simpl in Hds. apply andb_true_iff in Hds as [Hc Hds].
    rewrite append_cons, span_digits_cons, Hc, IH by done. done.
Qed.

Lemma span_digits_all (ds : string) :
  all_digits ds = true → Number.span_digits ds = (ds, EmptyString).
Proof.
  intros Hds. rewrite <- (append_nil_r ds) at 1. by apply span_digits_app.
Qed.

Lemma span_digits_empty (s : string) :
  (Number.span_digits s).1 = EmptyString → (Number.span_digits s).2 = s.
Proof.
  destruct s as [|c s]; [done|]. rewrite span_digits_cons.
  by destruct (Regex.is_digit c).
Qed.

Lemma digits_value_app (acc : Z) (s t : string) :
  Number.digits_value acc (s +:+ t) = Number.digits_value (Number.digits_value acc s) t.
Proof.
  revert acc. induction s as [|c s IH]; intros acc; [done|].
  rewrite append_cons. simpl. apply IH.
Qed.

Lemma point_not_digit (c : ascii) : Ascii.eqb c "." = true → Regex.is_digit c = false.
Proof. by intros ->%Ascii.eqb_eq. Qed.

Lemma minus_not_digit (c : ascii) : Ascii.eqb c "-" = true → Regex.is_digit c = false.
Proof. by intros ->%Ascii.eqb_eq. Qed.

Lemma digit_not_sign (c : ascii) :
  Regex.is_digit c = true → Ascii.eqb c "-" = false ∧ Ascii.eqb c "+" = false.
Proof.
  intros Hc. split; apply not_true_iff_false; intros ->%Ascii.eqb_eq; done.
Qed.

(** ** The pattern of the scorer *)

Lemma rmatch_seq {R : Type} (a b : Regex.regex) (s : string) (caps : gmap nat string)
    (k : string → gmap nat string → option R) :
  Regex.rmatch (Regex.Seq a b) s caps k =
    Regex.rmatch a s caps (λ s' caps', Regex.rmatch b s' caps' k).
Proof. reflexivity. Qed.

Lemma rmatch_opt {R : Type} (r : Regex.regex) (s : string) (caps : gmap nat string)
    (k : string → gmap nat string → option R) :
  Regex.rmatch (Regex.Opt r) s caps k =
    match Regex.rmatch r s caps k with
    | Some x => Some x
    | None => k s caps
    end.
Proof. reflexivity. Qed.

Lemma rmatch_chr {R : Type} (c : ascii) (s : string) (caps : gmap nat string)
    (k : string → gmap nat string → option R) :
  Regex.rmatch (Regex.Chr c) s caps k =
    match s with
    | String a s' => if Ascii.eqb a c then k s' caps else None
    | EmptyString => None
    end.
Proof. reflexivity. Qed.

Lemma rmatch_capture {R : Type} (i : nat) (r : Regex.regex) (s : string)
    (caps : gmap nat string) (k : string → gmap nat string → option R) :
  Regex.rmatch (Regex.Capture i r) s caps k =
    Regex.rmatch r s caps (λ s' caps', k s' (<[i := Regex.consumed s s']> caps')).
Proof. reflexivity. Qed.

Section matcher.
Context {R : Type} (k : string → gmap nat string → option R) (Hk : total k).

Lemma rmatch_opt_total (r : Regex.regex) :
  total (λ s caps, Regex.rmatch (Regex.Opt r) s caps k).
Proof.
  intros s caps. rewrite rmatch_opt.
  destruct (Regex.rmatch r s caps k); [by eexists|apply Hk].
Qed.

(** With a continuation that cannot fail, [\d+] takes every digit in front. *)
Lemma plus_digit_greedy (fuel : nat) (s : string) (caps : gmap nat string) :
  (String.length s < fuel)%nat →
  Regex.plus_iter (Regex.rmatch Regex.Digit) k fuel s caps =
    match (Number.span_digits s).1 with
    | EmptyString => None
    | String _ _ => k (Number.span_digits s).2 caps
    end.
Proof.
  revert s. induction fuel as [|fuel IH]; intros s Hlen; [lia|].
  destruct s as [|c s]; [done|].
  rewrite span_digits_cons. cbn [Regex.plus_iter Regex.rmatch].
  destruct (Regex.is_digit c) eqn:E; [|done]. cbn [fst snd].
  rewrite IH by (simpl in Hlen; lia).
  destruct (Number.span_digits s).1 eqn:Eip.
  - by rewrite (span_digits_empty _ Eip).
  - by destruct (Hk (Number.span_digits s).2 caps) as [x ->].
Qed.

Lemma rmatch_plus_digit (s : string) (caps : gmap nat string) :
  Regex.rmatch (Regex.Plus Regex.Digit) s caps k =
    match (Number.span_digits s).1 with
    | EmptyString => None
    | String _ _ => k (Number.span_digits s).2 caps
    end.
Proof. apply plus_digit_greedy. lia. Qed.

End matcher.

Section number_body.
Context {R : Type} (k : string → gmap nat string → option R) (Hk : total k).

Lemma rmatch_unsigned (s : string) (caps : gmap nat string) :
  Regex.rmatch
    (Regex.Seq (Regex.Plus Regex.Digit)
       (Regex.Opt (Regex.Seq (Regex.Chr ".") (Regex.Plus Regex.Digit)))) s caps k =
    match unsigned_end s with
    | Some s' => k s' caps
    | None => None
    end.
Proof.
  rewrite rmatch_seq, (rmatch_plus_digit _ (rmatch_opt_total k Hk _)).
  unfold unsigned_end.
  destruct (Number.span_digits s) as [ip rest]. cbn [fst snd] in *.
  destruct ip as [|d ip]; [done|].
  rewrite rmatch_opt, rmatch_seq, rmatch_chr.
  destruct rest as [|c r].
  { by destruct (Hk EmptyString caps) as [x ->]. }
  destruct (Ascii.eqb c ".") eqn:Ec; [|done].
  rewrite (rmatch_plus_digit k Hk).
  destruct (Number.span_digits r) as [fp rest']. cbn [fst snd].
  destruct fp; [done|]. by destruct (Hk rest' caps) as [x ->].
Qed.

Lemma rmatch_number_body (s : string) (caps : gmap nat string) :
  Regex.rmatch number_body s caps k =
    match number_end s with
    | Some s' => k s' caps
    | None => None
    end.
Proof.
  unfold number_body, number_end. rewrite rmatch_seq, rmatch_opt, rmatch_chr.
  destruct s as [|c r].
  { by rewrite (rmatch_unsigned EmptyString). }
  destruct (Ascii.eqb c "-") eqn:Ec; [|apply rmatch_unsigned].
  rewrite (rmatch_unsigned r). destruct (unsigned_end r) as [e|] eqn:Ee.
  - by destruct (Hk e caps) as [x ->].
  - rewrite (rmatch_unsigned (String c r)). unfold unsigned_end.
    rewrite span_digits_cons, (minus_not_digit _ Ec). done.
Qed.

End number_body.

(** The text the pattern matches at the head of a string parses to the number
    read there. *)
Lemma unsigned_end_text (s e : string) :
  unsigned_end s = Some e →
  ∃ c t v, s = String c t +:+ e ∧ Regex.is_digit c = true ∧
           Number.parse_digits (String c t) = Some v ∧
           Spec.read_unsigned s = Some v.
Proof.
  unfold unsigned_end, Spec.read_unsigned.
  destruct (span_digits_spec s) as (Hs & Hip & Hrest).
  destruct (Number.span_digits s) as [ip rest]. cbn [fst snd] in *.
  destruct ip as [|d ip]; [done|].
  assert (Regex.is_digit d = true) as Hd by (simpl in Hip; by destruct (Regex.is_digit d)).
  assert (Number.parse_digits (String d ip)
          = Some (Number.digits_value 0 (String d ip), O)) as Hplain.
  { unfold Number.parse_digits. by rewrite (span_digits_all _ Hip). }
  destruct rest as [|c r].
  { intros [= <-]. exists d, ip. eexists. by rewrite Hs. }
  destruct (Ascii.eqb c ".") eqn:Ec;
    [|intros [= <-]; exists d, ip; eexists; by rewrite Hs].
  destruct (span_digits_spec r) as (Hr & Hfp & Hrest').
  destruct (Number.span_digits r) as [fp rest']. cbn [fst snd] in *.
  destruct fp as [|f fp].
  - intros [= <-]. exists d, ip. eexists. rewrite append_nil_r. by rewrite Hs.
  - intros [= <-]. exists d, (ip +:+ String c (String f fp)). eexists.
    split; [|split; [done|split; [|done]]].
    + rewrite Hs, Hr. by rewrite <- !append_cons, !append_assoc.
    + unfold Number.parse_digits. rewrite <- append_cons.
      rewrite (span_digits_app (String d ip) (String c (String f fp)) Hip)
        by (simpl; by apply point_not_digit).
      rewrite Ec, (span_digits_all _ Hfp). cbn [fst].
      by rewrite digits_value_app.
Qed.

Lemma unsigned_end_none (s : string) :
  unsigned_end s = None → Spec.read_unsigned s = None.
Proof.
  unfold unsigned_end, Spec.read_unsigned.
  destruct (Number.span_digits s) as [ip rest].
  destruct ip; [done|]. destruct rest as [|c r]; [done|].
  destruct (Ascii.eqb c "."); [|done].
  destruct (Number.span_digits r) as [fp rest']. by destruct fp.
Qed.

Lemma number_end_read (s : string) :
  match number_end s with
  | Some e => Spec.read_number s = Some (Number.parseFloat (Regex.consumed s e))
  | None => Spec.read_number s = None
  end.
Proof.
  unfold number_end, Spec.read_number. destruct s as [|c r]; [done|].
  destruct (Ascii.eqb c "-") eqn:Ec.
  - destruct (unsigned_end r) as [e|] eqn:He.
    + apply unsigned_end_text in He as (d & t & [m sc] & -> & Hd & Hparse & ->).
      rewrite <- append_cons, consumed_append.
      unfold Number.parseFloat. by rewrite Ec, Hparse.
    + by rewrite (unsigned_end_none _ He).
  - destruct (unsigned_end (String c r)) as [e|] eqn:He.
    + apply unsigned_end_text in He as (d & t & [m sc] & Hs & Hd & Hparse & ->).
      rewrite Hs, consumed_append.
      unfold Number.parseFloat.
      destruct (digit_not_sign _ Hd) as [-> ->]. by rewrite Hparse.
    + by rewrite (unsigned_end_none _ He).
Qed.

Lemma final_continuation_total (s : string) :
  total (λ (s' : string) (caps : gmap nat string),
           Some (<[0%nat := Regex.consumed s s']> (<[1%nat := Regex.consumed s s']> caps))).
Proof. intros s' caps. by eexists. Qed.

(** What the pattern captures at the head of [s]. *)
Lemma rmatch_temperature_pattern (s : string) :
  Regex.rmatch temperature_pattern s ∅
    (λ s' caps, Some (<[0%nat := Regex.consumed s s']> caps)) =
    match number_end s with
    | Some e =>
        Some (<[0%nat := Regex.consumed s e]> (<[1%nat := Regex.consumed s e]> ∅))
    | None => None
    end.
Proof.
  change temperature_pattern with (Regex.Capture 1 number_body).
  rewrite rmatch_capture.
  apply (rmatch_number_body _ (final_continuation_total s)).
Qed.

(** The pattern and [parseFloat] together read the first number of the string. *)
Lemma exec_first_number (s : string) :
  match Regex.exec temperature_pattern s with
  | Some tempMatch =>
      ∃ text, tempMatch !! 1%nat = Some text ∧
              Spec.first_number s = Some (Number.parseFloat text)
  | None => Spec.first_number s = None
  end.
Proof.
  induction s as [|c s IH].
  - done.
  - cbn [Regex.exec Spec.first_number]. rewrite rmatch_temperature_pattern.
    pose proof (number_end_read (String c s)) as Hread.
    destruct (number_end (String c s)) as [e|].
    + rewrite Hread. eexists. split; [|done].
      rewrite lookup_insert_ne by done. apply lookup_insert_eq.
    + rewrite Hread. exact IH.
Qed.

Lemma parsed_temperature_spec (weatherSummary : string) :
  parsed_temperature weatherSummary = Spec.extracted_temperature weatherSummary.
Proof.
  unfold parsed_temperature, Spec.extracted_temperature.
  pose proof (exec_first_number weatherSummary) as H.
  destruct (Regex.exec temperature_pattern weatherSummary) as [m|].
  - destruct H as (text & -> & ->). done.
  - by rewrite H.
Qed.


(** ** The destination scorer: scores *)

Lemma scoreCity_score (rec : ActivityRecommendation.t) :
  ScoredCity.score (scoreCity rec) =
    Spec.score (ActivityRecommendation.weatherSummary rec).
Proof.
  unfold scoreCity, Spec.score, Spec.temperature_adjustment, Spec.condition_adjustment.
  cbn [ScoredCity.score]. rewrite parsed_temperature_spec, !geb_leb, !gtb_ltb.
  unfold Spec.condition_keywords. cbn [find fst snd].
  set (lower := JsString.toLowerCase (ActivityRecommendation.weatherSummary rec)).
  destruct (JsString.includes lower "clear"), (JsString.includes lower "rain"),
    (JsString.includes lower "cloud"); cbn [snd]; repeat case_match; lia.
Qed.


(** C9. Every score is 50 plus a temperature adjustment among 30, 20, -20
    and 0 plus a condition adjustment among 20, -15, 5 and 0, so it lies
    between 15 and 100; both bounds are reached. *)
Theorem score_bounds :
  (∀ rec, ∃ t c,
     ScoredCity.score (scoreCity rec) = 50 + t + c ∧
     t ∈ [30; 20; -20; 0] ∧ c ∈ [20; -15; 5; 0] ∧
     15 ≤ ScoredCity.score (scoreCity rec) ≤ 100) ∧
  (∃ rec, ScoredCity.score (scoreCity rec) = 15) ∧
  (∃ rec, ScoredCity.score (scoreCity rec) = 100).
Proof.
  split; [|split].
  - intros rec. rewrite scoreCity_score. unfold Spec.score.
    set (summary := ActivityRecommendation.weatherSummary rec).
    exists (Spec.temperature_adjustment (Spec.extracted_temperature summary)),
           (Spec.condition_adjustment summary).
    assert (Spec.temperature_adjustment (Spec.extracted_temperature summary)
            ∈ [30; 20; -20; 0]) as Ht.
    { unfold Spec.temperature_adjustment. repeat case_match; by repeat constructor. }
    assert (Spec.condition_adjustment summary ∈ [20; -15; 5; 0]) as Hc.
    { unfold Spec.condition_adjustment, Spec.condition_keywords. cbn [find fst].
      destruct (JsString.includes _ "clear"); [by repeat constructor|].
      destruct (JsString.includes _ "rain"); [by repeat constructor|].
      destruct (JsString.includes _ "cloud"); by repeat constructor. }
    split; [done|]. split; [done|]. split; [done|].
    rewrite !elem_of_cons, elem_of_nil in Ht, Hc. lia.
  - exists {| ActivityRecommendation.city := "Oslo";
              ActivityRecommendation.activities := [];
              ActivityRecommendation.weatherSummary := "0°C, Slight rain, 90% humidity" |}.
    by vm_compute.
  - exists {| ActivityRecommendation.city := "Paris";
              ActivityRecommendation.activities := [];
              ActivityRecommendation.weatherSummary := "20°C, Clear sky, 50% humidity" |}.
    by vm_compute.
Qed.

(** ** Rendering and reading numbers *)

Lemma take_drop (n : nat) (s : string) : JsString.take n s +:+ JsString.drop n s = s.
Proof.
  revert s. induction n as [|n IH]; intros [|c s]; try done.
  simpl. by rewrite append_cons, IH.
Qed.

Lemma length_drop (n : nat) (s : string) :
  String.length (JsString.drop n s) = (String.length s - n)%nat.
Proof. revert s. induction n as [|n IH]; intros [|c s]; simpl; auto. Qed.

Lemma length_repeat (c : ascii) (n : nat) : String.length (JsString.repeat c n) = n.
Proof. induction n as [|n IH]; simpl; auto. Qed.

Lemma all_digits_app (s t : string) :
  all_digits (s +:+ t) = all_digits s && all_digits t.
Proof.
  induction s as [|c s IH]; [done|]. rewrite append_cons. simpl.
  by rewrite IH, andb_assoc.
Qed.

Lemma all_digits_take_drop (n : nat) (s : string) :
  all_digits s = true →
  all_digits (JsString.take n s) = true ∧ all_digits (JsString.drop n s) = true.
Proof.
  intros Hs. rewrite <- (take_drop n s), all_digits_app in Hs.
  by apply andb_true_iff in Hs.
Qed.

Lemma all_digits_zeros (n : nat) : all_digits (JsString.repeat "0" n) = true.
Proof. induction n as [|n IH]; [done|]. simpl. exact IH. Qed.

Lemma digits_value_zeros (acc : Z) (n : nat) :
  Number.digits_value acc (JsString.repeat "0" n) = acc * 10 ^ Z.of_nat n.
Proof.
  revert acc. induction n as [|n IH]; intros acc.
  - simpl. lia.
  - cbn [JsString.repeat Number.digits_value]. rewrite IH.
    change (Number.digit_val "0") with 0. rewrite Nat2Z.inj_succ, Z.pow_succ_r by lia. lia.
Qed.

Lemma digit_char_spec (d : Z) :
  0 ≤ d < 10 →
  Regex.is_digit (Number.digit_char d) = true ∧ Number.digit_val (Number.digit_char d) = d.
Proof.
  intros Hd.
  assert (d = 0 ∨ d = 1 ∨ d = 2 ∨ d = 3 ∨ d = 4 ∨ d = 5 ∨ d = 6 ∨ d = 7 ∨ d = 8 ∨ d = 9)
    as Hcases by lia.
  repeat destruct Hcases as [-> | Hcases]; try subst d; by vm_compute.
Qed.

(** The digits of a number are digits, at least one, and read back as it. *)
Lemma digits_fuel_spec (fuel : nat) (n : Z) :
  (0 < fuel)%nat → 0 ≤ n < 2 ^ Z.of_nat fuel →
  all_digits (Number.digits_fuel fuel n) = true ∧
  Number.digits_value 0 (Number.digits_fuel fuel n) = n ∧
  JsString.truthy (Number.digits_fuel fuel n) = true.
Proof.
  revert n. induction fuel as [|fuel IH]; intros n Hfuel Hn; [lia|].
  cbn [Number.digits_fuel]. destruct (Z.ltb_spec n 10) as [Hlt|Hge].
  - destruct (digit_char_spec n) as [H1 H2]; [lia|].
    cbn [all_digits Number.digits_value JsString.truthy]. rewrite H1, H2. done.
  - rewrite Nat2Z.inj_succ, Z.pow_succ_r in Hn by lia.
    assert (1 ≤ n / 10) by (apply Z.div_le_lower_bound; lia).
    assert (n / 10 < 2 ^ Z.of_nat fuel) by (apply Z.div_lt_upper_bound; lia).
    destruct (IH (n / 10)) as (H1 & H2 & H3).
    { destruct fuel; [|lia]. change (2 ^ Z.of_nat 0) with 1 in *. lia. }
    { lia. }
    destruct (digit_char_spec (n mod 10)) as [H4 H5]; [apply Z.mod_pos_bound; lia|].
    rewrite all_digits_app, digits_value_app, H1, H2.
    cbn [all_digits Number.digits_value]. rewrite H4, H5.
    split; [done|]. split; [pose proof (Z.div_mod n 10); lia|].
    by destruct (Number.digits_fuel fuel (n / 10)).
Qed.

Lemma digits_spec (n : Z) :
  0 ≤ n →
  all_digits (Number.digits n) = true ∧
  Number.digits_value 0 (Number.digits n) = n ∧
  JsString.truthy (Number.digits n) = true.
Proof.
  intros Hn. apply digits_fuel_spec; [lia|]. split; [done|].
  destruct (decide (n = 0)) as [->|Hne]; [done|].
  rewrite Nat2Z.inj_succ, Z2Nat.id by apply Z.log2_nonneg.
  apply Z.log2_spec. lia.
Qed.

Lemma normalize_value (m : Z) (s : nat) :
  (Number.normalize m s).1 * 10 ^ Z.of_nat s
  = m * 10 ^ Z.of_nat (Number.normalize m s).2.
Proof.
  revert m. induction s as [|s IH]; intros m; [done|].
  cbn [Number.normalize]. destruct (Z.eqb_spec (m mod 10) 0) as [Hmod|Hmod]; [|done].
  rewrite Nat2Z.inj_succ, Z.pow_succ_r by lia.
  specialize (IH (m / 10)). pose proof (Z.div_mod m 10). nia.
Qed.

Lemma normalize_opp (m : Z) (s : nat) :
  Number.normalize (- m) s = (- (Number.normalize m s).1, (Number.normalize m s).2).
Proof.
  revert m. induction s as [|s IH]; intros m; [done|].
  cbn [Number.normalize].
  assert ((- m) mod 10 = 0 ↔ m mod 10 = 0) as Hiff.
  { rewrite !Z.mod_divide by lia. apply Z.divide_opp_r. }
  destruct (Z.eqb_spec (m mod 10) 0) as [Hmod|Hmod].
  - rewrite (proj2 (Z.eqb_eq _ _) (proj2 Hiff Hmod)).
    rewrite Z.div_opp_l_z by (done || lia). apply IH.
  - destruct (Z.eqb_spec ((- m) mod 10) 0) as [Hmod'|Hmod']; [tauto|done].
Qed.

Lemma normalize_zero (s : nat) : Number.normalize 0 s = (0, O).
Proof. induction s as [|s IH]; [done|]. exact IH. Qed.

Lemma normalize_pos (m : Z) (s : nat) : 0 < m → 0 < (Number.normalize m s).1.
Proof.
  intros Hm. pose proof (normalize_value m s) as H.
  assert (0 < 10 ^ Z.of_nat s) by (apply Z.pow_pos_nonneg; lia).
  assert (0 < 10 ^ Z.of_nat (Number.normalize m s).2) by (apply Z.pow_pos_nonneg; lia).
  nia.
Qed.

Lemma strip_zeros_value (fuel : nat) (q : Z) :
  q = (Number.strip_zeros fuel q).1 * 10 ^ Z.of_nat (Number.strip_zeros fuel q).2.
Proof.
  revert q. induction fuel as [|fuel IH]; intros q.
  - simpl. lia.
  - cbn [Number.strip_zeros]. destruct (Z.eqb_spec (q mod 10) 0) as [Hmod|Hmod].
    + specialize (IH (q / 10)). destruct (Number.strip_zeros fuel (q / 10)) as [p z].
      cbn [fst snd] in *. rewrite Nat2Z.inj_succ, Z.pow_succ_r by lia.
      pose proof (Z.div_mod q 10). nia.
    + simpl. lia.
Qed.

(** The fuel of [strip_zeros] is enough: no zero is left at the end. *)
Lemma strip_zeros_fuel (fuel : nat) (q : Z) :
  0 < q < 2 ^ Z.of_nat fuel → (Number.strip_zeros fuel q).1 mod 10 ≠ 0.
Proof.
  revert q. induction fuel as [|fuel IH]; intros q Hq.
  { change (2 ^ Z.of_nat 0) with 1 in Hq. lia. }
  cbn [Number.strip_zeros]. destruct (Z.eqb_spec (q mod 10) 0) as [Hmod|Hmod]; [|done].
  rewrite Nat2Z.inj_succ, Z.pow_succ_r in Hq by lia.
  specialize (IH (q / 10)). destruct (Number.strip_zeros fuel (q / 10)) as [p z].
  apply IH. pose proof (Z.div_mod q 10). split.
  - apply Z.div_str_pos. lia.
  - apply Z.div_lt_upper_bound; lia.
Qed.

(** Equal values compare alike. *)
Lemma compare_norm_l (x y : number) : Number.compare (Number.norm x) y = Number.compare x y.
Proof.
  destruct x as [|m s], y as [|m2 s2]; try done.
  - unfold Number.norm. by destruct (Number.normalize m s).
  - unfold Number.norm. pose proof (normalize_value m s) as Hv.
    destruct (Number.normalize m s) as [m1 s1]. cbn [fst snd] in Hv.
    unfold Number.compare. f_equal.
    assert (0 < 10 ^ Z.of_nat s) by (apply Z.pow_pos_nonneg; lia).
    assert (0 < 10 ^ Z.of_nat s1) by (apply Z.pow_pos_nonneg; lia).
    assert (0 < 10 ^ Z.of_nat s2) by (apply Z.pow_pos_nonneg; lia).
    destruct (Z.compare_spec (m * 10 ^ Z.of_nat s2) (m2 * 10 ^ Z.of_nat s));
      [apply Z.compare_eq_iff|apply Z.compare_lt_iff|apply Z.compare_gt_iff]; nia.
Qed.

Lemma compare_norm_r (x y : number) : Number.compare y (Number.norm x) = Number.compare y x.
Proof. by rewrite compare_swap, compare_norm_l, <- compare_swap. Qed.

Lemma eqb_norm (x : number) : x ≠ NaN → Number.eqb (Number.norm x) x = true.
Proof.
  intros Hx. unfold Number.eqb. rewrite compare_norm_l.
  destruct x as [|m s]; [done|]. unfold Number.compare. by rewrite Z.compare_refl.
Qed.

Lemma parse_digits_integer (ds : string) :
  all_digits ds = true → JsString.truthy ds = true →
  Number.parse_digits ds = Some (Number.digits_value 0 ds, O).
Proof.
  intros H1 H2. unfold Number.parse_digits. rewrite span_digits_all by done.
  by destruct ds.
Qed.

Lemma parse_digits_fraction (ip fp : string) :
  all_digits ip = true → all_digits fp = true → JsString.truthy ip = true →
  Number.parse_digits (ip +:+ String "." fp)
  = Some (Number.digits_value 0 (ip +:+ fp), String.length fp).
Proof.
  intros H1 H2 H3. unfold Number.parse_digits.
  rewrite span_digits_app by done.
  change (Ascii.eqb "." ".") with true. cbv iota.
  rewrite span_digits_all by done. cbn [fst].
  rewrite digits_value_app. by destruct ip.
Qed.

Lemma plain_unsigned_exponent (d : ascii) (frac rest : string) :
  Regex.is_digit d = true → all_digits frac = true →
  Spec.plain_unsigned (String d ("e" +:+ rest)) = false ∧
  Spec.plain_unsigned (String d ("." +:+ frac +:+ "e" +:+ rest)) = false.
Proof.
  intros Hd Hfrac. unfold Spec.plain_unsigned. split.
  - rewrite span_digits_cons, Hd. change ("e" +:+ rest) with (String "e" rest).
    rewrite span_digits_cons. change (Regex.is_digit "e") with false.
    cbn [fst snd]. destruct (Number.span_digits rest). done.
  - rewrite span_digits_cons, Hd.
    change ("." +:+ frac +:+ "e" +:+ rest) with (String "." (frac +:+ String "e" rest)).
    rewrite span_digits_cons. change (Regex.is_digit ".") with false.
    cbn [fst snd]. rewrite span_digits_app by done.
    by rewrite andb_false_r.
Qed.

(** The rendering of a positive number starts with a digit; in the three
    plain cases it reads back as the normal form, in the exponent case it is
    not plain. *)
Lemma positive_to_string_cases (m : Z) (s : nat) :
  0 < m →
  ∃ d t, Number.positive_to_string m s = String d t ∧ Regex.is_digit d = true ∧
         (Number.parse_digits (String d t) = Some (Number.normalize m s) ∨
          Spec.plain_unsigned (String d t) = false).
Proof.
  intros Hm. unfold Number.positive_to_string.
  pose proof (normalize_pos m s Hm) as Hm1.
  destruct (Number.normalize m s) as [m1 s1]. cbn [fst] in Hm1.
  assert (∃ q z, (match s1 with
                  | O => Number.strip_zeros (S (Z.to_nat (Z.log2 m1))) m1
                  | S _ => (m1, O)
                  end) = (q, z) ∧ m1 = q * 10 ^ Z.of_nat z ∧ (s1 ≠ O → z = O))
    as (q & z & -> & Hq & Hz).
  { destruct s1.
    - pose proof (strip_zeros_value (S (Z.to_nat (Z.log2 m1))) m1) as Hv.
      destruct (Number.strip_zeros _ m1) as [q z]. by exists q, z.
    - exists m1, O. split; [done|]. split; [simpl; lia|done]. }
  assert (0 < 10 ^ Z.of_nat z) as Hpow by (apply Z.pow_pos_nonneg; lia).
  assert (0 < q) as Hqpos by nia.
  destruct (digits_spec q) as (Hall & Hval & Hne); [lia|].
  destruct (Number.digits q) as [|d t] eqn:Hds; [done|].
  assert (Regex.is_digit d = true) as Hd.
  { simpl in Hall. by apply andb_true_iff in Hall as [? _]. }
  set (ds := String d t) in *.
  set (k := Z.of_nat (String.length ds)).
  assert (1 ≤ k) as Hk by (unfold k, ds; simpl; lia).
  set (n := k + Z.of_nat z - Z.of_nat s1).
  destruct ((k <=? n) && (n <=? 21)) eqn:B1.
  { (* an integer: the digits and the zeros that were split off *)
    apply andb_true_iff in B1 as [B1 _]. apply Z.leb_le in B1.
    assert (s1 = O) as -> by (destruct s1; [done|]; rewrite Hz in * by done; lia).
    exists d, (t +:+ JsString.repeat "0" (Z.to_nat (n - k))).
    split; [done|]. split; [done|]. left.
    rewrite <- append_cons. fold ds.
    rewrite parse_digits_integer.
    - rewrite digits_value_app, Hval, digits_value_zeros. do 2 f_equal.
      rewrite Hq. f_equal. f_equal. unfold n. lia.
    - by rewrite all_digits_app, Hall, all_digits_zeros.
    - done. }
  assert (n ≤ 21 → s1 ≠ O ∧ z = O ∧ q = m1 ∧ n = k - Z.of_nat s1) as Hfrac.
  { intros Hn. apply andb_false_iff in B1 as [B1|B1]; apply Z.leb_gt in B1; [|lia].
    assert (s1 ≠ O) as Hs1 by (intros ->; unfold n in *; lia).
    specialize (Hz Hs1). subst z. change (10 ^ Z.of_nat 0) with 1 in Hq.
    unfold n. repeat split; (done || lia). }
  clear B1. destruct ((0 <? n) && (n <=? 21)) eqn:B2.
  { (* the point falls inside the digits *)
    apply andb_true_iff in B2 as [B2 B2']. apply Z.ltb_lt in B2. apply Z.leb_le in B2'.
    destruct (Hfrac B2') as (Hs1 & -> & -> & Hn).
    destruct (all_digits_take_drop (Z.to_nat n) ds Hall) as [Htake Hdrop].
    assert (∃ t', JsString.take (Z.to_nat n) ds = String d t') as [t' Ht'].
    { destruct (Z.to_nat n) eqn:En; [lia|]. unfold ds. by eexists. }
    exists d, (t' +:+ String "." (JsString.drop (Z.to_nat n) ds)).
    rewrite <- append_cons, <- Ht'. split; [done|]. split; [done|]. left.
    rewrite parse_digits_fraction by (done || by rewrite Ht').
    rewrite take_drop, Hval, length_drop. do 2 f_equal. unfold k in Hn. lia. }
  destruct ((-6 <? n) && (n <=? 0)) eqn:B3.
  { (* the point comes before the digits *)
    apply andb_true_iff in B3 as [_ B3]. apply Z.leb_le in B3.
    destruct Hfrac as (Hs1 & -> & -> & Hn); [lia|].
    exists "0"%char, (String "." (JsString.repeat "0" (Z.to_nat (- n)) +:+ ds)).
    split; [done|]. split; [done|]. left.
    change (String "0" (String "." ?x)) with ("0" +:+ String "." x).
    rewrite parse_digits_fraction;
      [|done|by rewrite all_digits_app, all_digits_zeros|done].
    rewrite !digits_value_app, digits_value_zeros.
    change (Number.digits_value 0 "0") with 0. rewrite Z.mul_0_l, Hval.
    rewrite length_append, length_repeat. do 2 f_equal. unfold k in Hn. lia. }
  (* exponent notation *)
  assert (all_digits t = true) as Ht.
  { simpl in Hall. by apply andb_true_iff in Hall as [_ ?]. }
  unfold ds. destruct t as [|c t].
  - eexists _, _. split; [reflexivity|]. split; [done|]. right.
    by apply (plain_unsigned_exponent d EmptyString).
  - eexists _, _. split; [reflexivity|]. split; [done|]. right.
    by apply plain_unsigned_exponent.
Qed.

(** A rendering in plain notation reads back as the number, in normal form. *)
Lemma to_string_roundtrip (x : number) :
  Spec.plain_notation (Number.to_string x) = true →
  Number.parseFloat (Number.to_string x) = Number.norm x.
Proof.
  destruct x as [|m s]; [done|]. unfold Number.to_string, Number.norm.
  destruct (Z.eqb_spec m 0) as [->|Hm0].
  { intros _. by rewrite normalize_zero. }
  destruct (Z.ltb_spec m 0) as [Hneg|Hpos].
  - destruct (positive_to_string_cases (- m) s) as (d & t & -> & Hd & Hcase); [lia|].
    change ("-" +:+ String d t) with (String "-" (String d t)).
    unfold Spec.plain_notation, Number.parseFloat.
    change (Ascii.eqb "-" "-") with true. cbv iota. intros Hplain.
    destruct Hcase as [->|Hcase]; [|congruence].
    rewrite <- (Z.opp_involutive m) at 2. rewrite (normalize_opp (- m)).
    by destruct (Number.normalize (- m) s).
  - destruct (positive_to_string_cases m s) as (d & t & -> & Hd & Hcase); [lia|].
    unfold Spec.plain_notation, Number.parseFloat.
    destruct (digit_not_sign _ Hd) as [-> ->]. intros Hplain.
    destruct Hcase as [->|Hcase]; [|congruence].
    by destruct (Number.normalize m s).
Qed.

Lemma eqb_of_Z (a b : Z) : Number.eqb (Number.of_Z a) (Number.of_Z b) = (a =? b).
Proof.
  unfold Number.eqb, Number.of_Z, Number.compare. change (10 ^ Z.of_nat 0) with 1.
  rewrite !Z.mul_1_r. destruct (Z.compare_spec a b), (Z.eqb_spec a b); (done || lia).
Qed.

(** ** The condition decoder *)

(** A number whose value is none of the eleven codes is not a key of the
    table: a key is in plain notation, so the number reads back from it. *)
Lemma decoder_unknown (x : number) :
  Forall (λ code, Number.eqb x (Number.of_Z code) = false) Spec.table_codes →
  getWeatherCondition x = "Unknown".
Proof.
  intros Hx. unfold getWeatherCondition.
  destruct (conditions !! Number.to_string x) as [label|] eqn:E; [|done].
  exfalso. unfold conditions in E. apply elem_of_list_to_map_2 in E.
  assert (∀ key code, Number.to_string x = key →
            Spec.plain_notation key = true →
            Number.parseFloat key = Number.of_Z code →
            code ∈ Spec.table_codes → False) as Hkey.
  { intros key code Hk Hplain Hparse Hin. rewrite <- Hk in Hplain, Hparse.
    rewrite to_string_roundtrip in Hparse by done.
    rewrite Forall_forall in Hx. specialize (Hx code Hin).
    unfold Number.eqb in Hx. rewrite <- compare_norm_l, Hparse in Hx.
    fold (Number.eqb (Number.of_Z code) (Number.of_Z code)) in Hx.
    rewrite eqb_of_Z, Z.eqb_refl in Hx. done. }
  unfold Spec.table_codes in Hkey.
  repeat (apply elem_of_cons in E as [E|E];
          [injection E as Ek _;
           eapply (Hkey _ _ Ek); [reflexivity|reflexivity|set_solver]|]).
  by apply elem_of_nil in E.
Qed.

(** C3. Each of the eleven codes of the table is decoded to its label, and
    every other integer code to "Unknown". *)
Theorem decoder_table :
  Forall
    (λ code, getWeatherCondition (Number.of_Z code) = Spec.table_label code ∧
             Spec.table_label code ≠ "Unknown")
    Spec.table_codes ∧
  length Spec.table_codes = 11%nat ∧
  ∀ code : Z, code ∉ Spec.table_codes →
    getWeatherCondition (Number.of_Z code) = "Unknown" ∧
    Spec.table_label code = "Unknown".
Proof.
  split; [|split; [done|]].
  - unfold Spec.table_codes. repeat (constructor; [by vm_compute|]). constructor.
  - intros code Hcode. split.
    + apply decoder_unknown, Forall_forall. intros c Hc.
      rewrite eqb_of_Z. apply Z.eqb_neq. by intros ->.
    + unfold Spec.table_label.
      repeat match goal with
             | |- context [?a =? ?b] =>
                 destruct (Z.eqb_spec a b) as [->|_];
                 [exfalso; apply Hcode; unfold Spec.table_codes; set_solver|]
             end.
      done.
Qed.

Lemma decoder_table_witness :
  getWeatherCondition (Number.of_Z 4) = "Unknown" ∧ Spec.table_label 4 = "Unknown".
Proof.
  apply (proj2 (proj2 decoder_table) 4). unfold Spec.table_codes.
  intros H. repeat (apply elem_of_cons in H as [H|H]; [discriminate H|]).
  by apply elem_of_nil in H.
Defined.

(** ** Reading the temperature back from the summary *)

(** A plain unsigned decimal followed by a character that is neither a digit
    nor a point is read whole. *)
Lemma read_unsigned_prefix (body : string) (c : ascii) (r : string) :
  Spec.plain_unsigned body = true →
  Regex.is_digit c = false → Ascii.eqb c "." = false →
  ∃ v d t, Spec.read_unsigned (body +:+ String c r) = Some v ∧
           Number.parse_digits body = Some v ∧
           body = String d t ∧ Regex.is_digit d = true.
Proof.
  intros Hplain Hc Hpoint. unfold Spec.plain_unsigned in Hplain.
  destruct (span_digits_spec body) as (Hb & Hip & _).
  destruct (Number.span_digits body) as [ip rest0]. cbn [fst snd] in *.
  destruct ip as [|d ip]; [done|].
  assert (Regex.is_digit d = true) as Hd.
  { simpl in Hip. by apply andb_true_iff in Hip as [? _]. }
  destruct rest0 as [|c0 r0].
  - rewrite append_nil_r in Hb. subst body. eexists _, d, ip.
    split; [|split; [by apply parse_digits_integer|done]].
    unfold Spec.read_unsigned. rewrite span_digits_app by done. by rewrite Hpoint.
  - destruct (span_digits_spec r0) as (Hr0 & Hfp & _).
    destruct (Number.span_digits r0) as [fp rest']. cbn [fst snd] in *.
    cbn [JsString.truthy andb] in Hplain.
    apply andb_true_iff in Hplain as [Hplain Hrest'].
    apply andb_true_iff in Hplain as [Hc0 Hfpne].
    apply Ascii.eqb_eq in Hc0 as ->. destruct rest'; [|done].
    rewrite append_nil_r in Hr0. subst r0 body.
    eexists _, d, (ip +:+ String "." fp).
    split; [|split; [by apply parse_digits_fraction|done]].
    unfold Spec.read_unsigned. rewrite append_assoc, (append_cons "." fp).
    rewrite span_digits_app by done.
    change (Ascii.eqb "." ".") with true. cbv iota.
    by rewrite span_digits_app by done.
Qed.

Lemma first_number_prefix (text : string) (c : ascii) (r : string) :
  Spec.plain_notation text = true →
  Regex.is_digit c = false → Ascii.eqb c "." = false →
  Spec.first_number (text +:+ String c r) = Some (Number.parseFloat text).
Proof.
  intros Hplain Hc Hpoint. unfold Spec.plain_notation in Hplain.
  destruct text as [|a body]; [done|].
  rewrite append_cons. cbn [Spec.first_number]. unfold Spec.read_number, Number.parseFloat.
  destruct (Ascii.eqb a "-") eqn:Ea.
  - destruct (read_unsigned_prefix body c r Hplain Hc Hpoint)
      as ([m sc] & d & t & -> & -> & _). done.
  - destruct (read_unsigned_prefix _ c r Hplain Hc Hpoint)
      as ([m sc] & d & t & Hread & Hparse & [= -> ->] & Hd).
    rewrite append_cons in Hread. rewrite Hread.
    destruct (digit_not_sign _ Hd) as [_ ->]. by rewrite Hparse.
Qed.

Lemma temperature_adjustment_norm (x : number) :
  Spec.temperature_adjustment (Number.norm x) = Spec.temperature_adjustment x.
Proof.
  unfold Spec.temperature_adjustment, Number.leb, Number.ltb.
  by rewrite !compare_norm_l, !compare_norm_r.
Qed.

(** C8. When the temperature is rendered in plain decimal notation and the
    condition is a label of the decoder, the number the scorer reads back from
    the summary is the temperature, and the score equals the one computed
    from the raw temperature. *)
Theorem summary_temperature_roundtrip (w : CityWeather.t) :
  Spec.plain_notation (Number.to_string (CityWeather.temperature w)) = true →
  (∃ code, CityWeather.condition w = getWeatherCondition code) →
  let rec := generateActivityRecommendations w in
  let summary := ActivityRecommendation.weatherSummary rec in
  parsed_temperature summary = Number.norm (CityWeather.temperature w) ∧
  Number.eqb (parsed_temperature summary) (CityWeather.temperature w) = true ∧
  ScoredCity.score (scoreCity rec) = Spec.score_from_raw (CityWeather.temperature w) summary.
Proof.
  intros Hplain _ rec summary.
  assert (parsed_temperature summary = Number.norm (CityWeather.temperature w)) as Hparsed.
  { rewrite parsed_temperature_spec. unfold Spec.extracted_temperature.
    unfold summary, rec, generateActivityRecommendations, weather_summary.
    cbn [ActivityRecommendation.weatherSummary].
    change ("°C, " +:+ ?x) with (String "194" (String "176" ("C, " +:+ x))).
    rewrite first_number_prefix by done. by apply to_string_roundtrip. }
  split; [done|]. split.
  - rewrite Hparsed. apply eqb_norm. by destruct (CityWeather.temperature w).
  - rewrite scoreCity_score. unfold Spec.score, Spec.score_from_raw.
    fold summary. rewrite <- parsed_temperature_spec, Hparsed.
    by rewrite temperature_adjustment_norm.
Qed.

Lemma summary_temperature_roundtrip_witness :
  parsed_temperature "-3.5°C, Partly cloudy, 80% humidity" = Dec (-35) 1 ∧
  ScoredCity.score
    (scoreCity (generateActivityRecommendations
       {| CityWeather.city := "Oslo"; CityWeather.temperature := Dec (-350) 2;
          CityWeather.condition := "Partly cloudy"; CityWeather.humidity := Dec 80 0 |}))
  = 35.
Proof.
  destruct (summary_temperature_roundtrip
    {| CityWeather.city := "Oslo"; CityWeather.temperature := Dec (-350) 2;
       CityWeather.condition := "Partly cloudy"; CityWeather.humidity := Dec 80 0 |})
    as (Hparsed & _ & Hscore).
  - reflexivity.
  - exists (Number.of_Z 2). reflexivity.
  - split; [exact Hparsed|]. rewrite Hscore. reflexivity.
Defined.

(** ** The scenarios of the specification *)

Example paris_beats_tokyo :
  findBestDestination
    (generateActivityRecommendations <$>
       [ {| CityWeather.city := "Tokyo"; CityWeather.temperature := Dec 20 0;
            CityWeather.condition := "Heavy rain"; CityWeather.humidity := Dec 80 0 |};
         {| CityWeather.city := "Paris"; CityWeather.temperature := Dec 20 0;
            CityWeather.condition := "Clear sky"; CityWeather.humidity := Dec 50 0 |} ])
  = Ok {| Report.bestCity := "Paris";
          Report.reason :=
            "Paris has the best weather conditions with 20°C, Clear sky, 50% humidity. Top recommended activity: 🚴 Cycling";
          Report.allCities :=
            [ {| ScoredCity.city := "Paris"; ScoredCity.score := 100;
                 ScoredCity.weatherSummary := "20°C, Clear sky, 50% humidity";
                 ScoredCity.topActivity := "🚴 Cycling" |};
              {| ScoredCity.city := "Tokyo"; ScoredCity.score := 65;
                 ScoredCity.weatherSummary := "20°C, Heavy rain, 80% humidity";
                 ScoredCity.topActivity := "🎬 Movie theater" |} ] |}.
Proof. by vm_compute. Qed.

(** A city the geocoder does not know is scored from the zero temperature. *)
Example unknown_city_score :
  ScoredCity.score
    (scoreCity (generateActivityRecommendations
       {| CityWeather.city := "Atlantis"; CityWeather.temperature := Number.of_Z 0;
          CityWeather.condition := "Location not found";
          CityWeather.humidity := Number.of_Z 0 |})) = 30.
Proof. by vm_compute. Qed.

(** Outside plain notation the pattern stops at the exponent mark. *)
Example exponent_rendering_read_back :
  Number.to_string (Dec 1 7) = "1e-7" ∧
  Spec.plain_notation (Number.to_string (Dec 1 7)) = false ∧
  parsed_temperature (weather_summary (Dec 1 7) "Clear sky" (Dec 50 0)) = Dec 1 0.
Proof. by vm_compute. Qed.

(** A tie keeps the input order. *)
Example tie_keeps_input_order :
  Report.bestCity <$>
    (match
       findBestDestination
         [ {| ActivityRecommendation.city := "Lyon";
              ActivityRecommendation.activities := [];
              ActivityRecommendation.weatherSummary := "21°C, Clear sky, 40% humidity" |};
           {| ActivityRecommendation.city := "Nice";
              ActivityRecommendation.activities := [];
              ActivityRecommendation.weatherSummary := "24°C, Mainly clear, 45% humidity" |} ]
     with
     | Ok report => Some report
     | Err _ => None
     end) = Some "Lyon".
Proof. by vm_compute. Qed.

(** ** The weather-fetch step: requests and failures *)


(** X1. When the geocoder answers with at least one result and the forecast
    request succeeds, the step returns the name the geocoder gave (not the
    name typed in), the temperature and humidity of the forecast and the
    decoded condition; it makes the two requests in order, and results after
    the first play no part. *)
Theorem fetch_found (w : world) (city : string) (g : GeoResult.t)
    (others : list GeoResult.t) (data : ForecastData.t) :
  geocoding_api w (geocodingUrl city)
    = Resolved {| GeocodingData.results := Some (g :: others) |} →
  forecast_api w (weatherUrl (GeoResult.latitude g) (GeoResult.longitude g))
    = Resolved data →
  run w (fetchCityWeather city) =
    ([geocodingUrl city; weatherUrl (GeoResult.latitude g) (GeoResult.longitude g)],
     Ok {| CityWeather.city := GeoResult.name g;
           CityWeather.temperature := Current.temperature_2m (ForecastData.current data);
           CityWeather.condition :=
             getWeatherCondition (Current.weathercode (ForecastData.current data));
           CityWeather.humidity :=
             Current.relative_humidity_2m (ForecastData.current data) |}).
Proof.
  intros Hgeo Hforecast. unfold fetchCityWeather. cbn [run]. rewrite Hgeo.
  cbn [first_result GeocodingData.results lookup list_lookup run].
  by rewrite Hforecast.
Qed.

Lemma fetch_found_witness :
  (run {| geocoding_api := λ _, Resolved {| GeocodingData.results :=
              Some [ {| GeoResult.latitude := Dec 4885 2; GeoResult.longitude := Dec 235 2;
                        GeoResult.name := "Paris" |};
                     {| GeoResult.latitude := Dec 3366 2; GeoResult.longitude := Dec (-9555) 2;
                        GeoResult.name := "Paris, Texas" |} ] |};
          forecast_api := λ _, Resolved {| ForecastData.current :=
              {| Current.temperature_2m := Dec 215 1;
                 Current.relative_humidity_2m := Dec 40 0;
                 Current.weathercode := Dec 2 0 |} |} |}
       (fetchCityWeather "paris")).2
  = Ok {| CityWeather.city := "Paris"; CityWeather.temperature := Dec 215 1;
          CityWeather.condition := "Partly cloudy"; CityWeather.humidity := Dec 40 0 |}.
Proof.
  rewrite (fetch_found _ "paris"
             {| GeoResult.latitude := Dec 4885 2; GeoResult.longitude := Dec 235 2;
                GeoResult.name := "Paris" |}
             [ {| GeoResult.latitude := Dec 3366 2; GeoResult.longitude := Dec (-9555) 2;
                  GeoResult.name := "Paris, Texas" |} ]
             {| ForecastData.current :=
                  {| Current.temperature_2m := Dec 215 1;
                     Current.relative_humidity_2m := Dec 40 0;
                     Current.weathercode := Dec 2 0 |} |}).
  - reflexivity.
  - reflexivity.
  - reflexivity.
Defined.



(** ** The per-city workflow *)



(** X10. A city the geocoder does not know goes through the whole pipeline
    without failing: one request, the winter activities, the summary
    "0°C, Location not found, 0% humidity", and a score of 30 whatever the
    name. *)
Theorem unknown_city_pipeline (w : world) (city : string) (d : GeocodingData.t) :
  geocoding_api w (geocodingUrl city) = Resolved d →
  first_result d = None →
  ∃ rec,
    run w (processSingleCityWorkflow city) = ([geocodingUrl city], Ok rec) ∧
    ActivityRecommendation.city rec = city ∧
    ActivityRecommendation.activities rec = Spec.cold_set ∧
    ActivityRecommendation.weatherSummary rec = "0°C, Location not found, 0% humidity" ∧
    ScoredCity.score (scoreCity rec) = 30 ∧
    ScoredCity.topActivity (scoreCity rec) = "⛷️ Winter sports".
Proof.
  intros Hgeo Hfirst. eexists. split.
  - unfold processSingleCityWorkflow, fetchCityWeather. cbn [bind run].
    rewrite Hgeo, Hfirst. cbn [bind run]. reflexivity.
  - by vm_compute.
Qed.

Lemma unknown_city_pipeline_witness :
  ∃ rec,
    run {| geocoding_api := λ _, Resolved {| GeocodingData.results := None |};
           forecast_api := λ _, Rejected "unused" |}
        (processSingleCityWorkflow "El Dorado")
    = (["https://geocoding-api.open-meteo.com/v1/search?name=El%20Dorado&count=1"], Ok rec) ∧
    ScoredCity.score (scoreCity rec) = 30.
Proof.
  destruct (unknown_city_pipeline
              {| geocoding_api := λ _, Resolved {| GeocodingData.results := None |};
                 forecast_api := λ _, Rejected "unused" |}
              "El Dorado" {| GeocodingData.results := None |} eq_refl eq_refl)
    as (rec & Hrun & _ & _ & _ & Hscore & _).
  exists rec. split; [exact Hrun|exact Hscore].
Defined.

(** ** The geocoding URL *)

Lemma append_inj_r (s1 s2 t : string) : s1 +:+ t = s2 +:+ t → s1 = s2.
Proof.
  intros H. assert (String.length s1 = String.length s2) as Hlen.
  { apply (f_equal String.length) in H. rewrite !length_append in H. lia. }
  revert s2 H Hlen. induction s1 as [|c s1 IH]; intros [|c2 s2] H Hlen; try done.
  rewrite !append_cons in H. injection H as -> H. f_equal. apply IH; [done|].
  simpl in Hlen. lia.
Qed.

Lemma hex_digit_spec (n : N) :
  (n < 16)%N →
  JsString.uri_unreserved (JsString.hex_digit n) = true ∧
  N_of_ascii (JsString.hex_digit n) = (if (n <? 10)%N then 48 + n else 55 + n)%N.
Proof.
  intros Hn.
  assert (n ∈ [0; 1; 2; 3; 4; 5; 6; 7; 8; 9; 10; 11; 12; 13; 14; 15]%N) as Hcases.
  { rewrite !elem_of_cons. lia. }
  rewrite !elem_of_cons, elem_of_nil in Hcases.
  repeat destruct Hcases as [-> | Hcases]; try done.
Qed.

Lemma hex_digit_inj (a b : N) :
  (a < 16)%N → (b < 16)%N → JsString.hex_digit a = JsString.hex_digit b → a = b.
Proof.
  intros Ha Hb H. apply (f_equal N_of_ascii) in H.
  rewrite (proj2 (hex_digit_spec a Ha)), (proj2 (hex_digit_spec b Hb)) in H.
  destruct (N.ltb_spec a 10), (N.ltb_spec b 10); lia.
Qed.

Lemma percent_reserved (c : ascii) :
  JsString.uri_unreserved c = true → c ≠ "%"%char.
Proof. by intros H ->. Qed.

(** Different names are encoded differently. *)
Lemma encodeURIComponent_inj (s1 s2 : string) :
  JsString.encodeURIComponent s1 = JsString.encodeURIComponent s2 → s1 = s2.
Proof.
  revert s2. induction s1 as [|c1 s1 IH]; intros [|c2 s2]; cbn [JsString.encodeURIComponent].
  - done.
  - by destruct (JsString.uri_unreserved c2).
  - by destruct (JsString.uri_unreserved c1).
  - destruct (JsString.uri_unreserved c1) eqn:E1, (JsString.uri_unreserved c2) eqn:E2.
    + intros [= -> H]. f_equal. by apply IH.
    + intros [= -> _]. by apply percent_reserved in E1.
    + intros [= <- _]. by apply percent_reserved in E2.
    + intros [= Hhi Hlo H]. f_equal; [|by apply IH].
      pose proof (N_ascii_bounded c1). pose proof (N_ascii_bounded c2).
      apply hex_digit_inj in Hhi;
        [|apply N.Div0.div_lt_upper_bound; lia|apply N.Div0.div_lt_upper_bound; lia].
      apply hex_digit_inj in Hlo; [|apply N.mod_lt; lia|apply N.mod_lt; lia].
      rewrite <- (ascii_N_embedding c1), <- (ascii_N_embedding c2). f_equal.
      rewrite (N.div_mod (N_of_ascii c1) 16), (N.div_mod (N_of_ascii c2) 16) by lia.
      by rewrite Hhi, Hlo.
Qed.

(** X3. Two city names are looked up under the same geocoding URL only when
    they are the same name: the encoding of the name loses nothing. *)
Theorem geocodingUrl_inj (city1 city2 : string) :
  geocodingUrl city1 = geocodingUrl city2 → city1 = city2.
Proof.
  unfold geocodingUrl. intros H. apply String.app_inj in H.
  apply append_inj_r in H. by apply encodeURIComponent_inj.
Qed.

Lemma geocodingUrl_inj_witness : "São Paulo" = "São Paulo".
Proof. apply (geocodingUrl_inj "São Paulo" "São Paulo"). reflexivity. Defined.

Lemma all_chars_app (P : ascii → bool) (s t : string) :
  all_chars P (s +:+ t) = all_chars P s && all_chars P t.
Proof.
  induction s as [|c s IH]; [done|]. rewrite append_cons. simpl.
  by rewrite IH, andb_assoc.
Qed.

Lemma occurs_all_chars (P : ascii → bool) (x : ascii) (s : string) :
  all_chars P s = true → P x = false → occurs x s = false.
Proof.
  intros Hs Hx. induction s as [|c s IH]; [done|]. simpl in *.
  apply andb_true_iff in Hs as [Hc Hs]. rewrite IH by done.
  destruct (Ascii.eqb_spec x c) as [->|]; [congruence|done].
Qed.

Lemma encodeURIComponent_chars (s : string) :
  all_chars uri_char (JsString.encodeURIComponent s) = true.
Proof.
  induction s as [|c s IH]; [done|]. cbn [JsString.encodeURIComponent].
  destruct (JsString.uri_unreserved c) eqn:E; cbn [all_chars].
  - unfold uri_char at 1. by rewrite E, IH.
  - pose proof (N_ascii_bounded c).
    destruct (hex_digit_spec (N_of_ascii c / 16)) as [Hhi _];
      [apply N.Div0.div_lt_upper_bound; lia|].
    destruct (hex_digit_spec (N_of_ascii c mod 16)) as [Hlo _]; [apply N.mod_lt; lia|].
    unfold uri_char at 1 2 3. by rewrite Hhi, Hlo, IH.
Qed.

(** X4. The encoded city name is made of letters, digits, [- _ . ! ~ * ' ( )]
    and [%] only, so a name cannot add a parameter to the query, end it or
    break the URL: the characters [& = ? # / +] and the space never occur in
    it, and the URL ends in the one [&count=1] the step writes. *)
Theorem geocodingUrl_query_safe (city : string) :
  all_chars uri_char (JsString.encodeURIComponent city) = true ∧
  Forall (λ c, occurs c (JsString.encodeURIComponent city) = false)
    ["&"; "="; "?"; "#"; "/"; "+"; " "]%char ∧
  geocodingUrl city =
    "https://geocoding-api.open-meteo.com/v1/search?name=" +:+
    JsString.encodeURIComponent city +:+ "&count=1".
Proof.
  split; [apply encodeURIComponent_chars|]. split; [|done].
  repeat (constructor;
          [apply (occurs_all_chars uri_char); [apply encodeURIComponent_chars|done]|]).
  constructor.
Qed.

(** ** The recommender and the top activity *)

(** X5. The recommender never returns an empty list: it holds between two
    and five activities, all different and none of them the empty string, so
    the scorer's top activity is always the first recommended one and its
    "Explore the city" placeholder is never shown for a recommended city. *)
Theorem recommender_activities_nonempty (w : CityWeather.t) :
  let rec := generateActivityRecommendations w in
  let acts := ActivityRecommendation.activities rec in
  (2 ≤ length acts ≤ 5)%nat ∧
  Forall (λ a, JsString.truthy a = true) acts ∧
  NoDup acts ∧
  head acts = Some (ScoredCity.topActivity (scoreCity rec)) ∧
  ScoredCity.topActivity (scoreCity rec) ≠ "Explore the city".
Proof.
  unfold scoreCity, generateActivityRecommendations, condition_adjustments,
    temperature_activities.
  cbn [ActivityRecommendation.activities ScoredCity.topActivity].
  set (t := CityWeather.temperature w).
  set (c := JsString.toLowerCase (CityWeather.condition w)).
  destruct (JsString.includes c "rain"), (JsString.includes c "clear"),
    (JsString.includes c "sunny"), (Number.gtb t (Number.of_Z 25)),
    (Number.gtb t (Number.of_Z 15)), (Number.gtb t (Number.of_Z 5)).
  all: cbn [app orb].
  all: split; [simpl; lia|].
  all: split; [by repeat constructor|].
  all: split; [by apply (bool_decide_unpack _); vm_compute|].
  all: by split.
Qed.

(** X6. The top activity of a scored city is never the empty string: it is
    the first activity of the record, or the placeholder "Explore the city"
    when the record has no activity or its first activity is empty. *)
Theorem top_activity_never_empty (rec : ActivityRecommendation.t) :
  let top := ScoredCity.topActivity (scoreCity rec) in
  top ≠ "" ∧
  match ActivityRecommendation.activities rec with
  | [] => top = "Explore the city"
  | first :: _ => top = if JsString.truthy first then first else "Explore the city"
  end.
Proof.
  unfold scoreCity. cbn [ScoredCity.topActivity].
  destruct (ActivityRecommendation.activities rec) as [|first rest]; [done|].
  cbn [lookup list_lookup or_else]. by destruct first.
Qed.

(** ** The temperature read from a summary *)





(** ** Keywords in the summary *)

Lemma toLowerCase_app (s t : string) :
  JsString.toLowerCase (s +:+ t) = JsString.toLowerCase s +:+ JsString.toLowerCase t.
Proof. induction s as [|c s IH]; [done|]. rewrite append_cons. simpl. by rewrite IH. Qed.

(** A character foreign to the keyword cuts the search in two. *)
Lemma startsWith_sep (kw a b : string) (x : ascii) :
  occurs x kw = false →
  JsString.startsWith kw (a +:+ String x b) = JsString.startsWith kw a.
Proof.
  revert a. induction kw as [|k0 kw IH]; intros a Hx; [done|].
  cbn [occurs] in Hx. apply orb_false_iff in Hx as [Hk0 Hkw].
  destruct a as [|a0 a].
  - rewrite append_nil_l. cbn [JsString.startsWith].
    by rewrite Ascii.eqb_sym, Hk0.
  - rewrite append_cons. cbn [JsString.startsWith]. by rewrite IH.
Qed.

Lemma includes_sep (k0 : ascii) (kw a b : string) (x : ascii) :
  occurs x (String k0 kw) = false →
  JsString.includes (a +:+ String x b) (String k0 kw) =
    JsString.includes a (String k0 kw) || JsString.includes b (String k0 kw).
Proof.
  intros Hx. induction a as [|a0 a IH].
  - rewrite append_nil_l. cbn [JsString.includes JsString.startsWith].
    cbn [occurs] in Hx. apply orb_false_iff in Hx as [Hk0 _].
    by rewrite Ascii.eqb_sym, Hk0.
  - rewrite append_cons. cbn [JsString.includes].
    rewrite <- append_cons, startsWith_sep, IH by done. by rewrite orb_assoc.
Qed.

Lemma includes_absent (k0 : ascii) (kw s : string) :
  occurs k0 s = false → JsString.includes s (String k0 kw) = false.
Proof.
  induction s as [|c s IH]; [done|]. cbn [occurs JsString.includes JsString.startsWith].
  intros [Hc Hs]%orb_false_iff. by rewrite Hc, IH.
Qed.

Lemma digit_char_digit (d : Z) : d < 10 → Regex.is_digit (Number.digit_char d) = true.
Proof.
  intros Hd. destruct (decide (0 ≤ d)) as [Hpos|Hneg].
  - by apply digit_char_spec.
  - unfold Number.digit_char. by replace (Z.to_N d) with 0%N by lia.
Qed.

Lemma digits_fuel_all_digits (fuel : nat) (n : Z) :
  all_digits (Number.digits_fuel fuel n) = true.
Proof.
  revert n. induction fuel as [|fuel IH]; intros n; [done|].
  cbn [Number.digits_fuel]. destruct (Z.ltb_spec n 10).
  - cbn [all_digits]. by rewrite digit_char_digit.
  - rewrite all_digits_app, IH. cbn [all_digits].
    rewrite digit_char_digit; [done|]. apply Z.mod_pos_bound. lia.
Qed.

Lemma all_digits_numeric (s : string) :
  all_digits s = true → all_chars numeric_char s = true.
Proof.
  induction s as [|c s IH]; [done|]. cbn [all_digits all_chars].
  intros [Hc Hs]%andb_true_iff. unfold numeric_char at 1. by rewrite Hc, IH.
Qed.

Lemma positive_to_string_numeric (m : Z) (s : nat) :
  all_chars numeric_char (Number.positive_to_string m s) = true.
Proof.
  unfold Number.positive_to_string.
  destruct (Number.normalize m s) as [m1 s1].
  destruct (match s1 with
            | O => Number.strip_zeros (S (Z.to_nat (Z.log2 m1))) m1
            | S _ => (m1, O)
            end) as [q z].
  pose proof (digits_fuel_all_digits (S (Z.to_nat (Z.log2 q))) q) as Hds.
  fold (Number.digits q) in Hds.
  set (ds := Number.digits q) in *.
  set (n := Z.of_nat (String.length ds) + Z.of_nat z - Z.of_nat s1).
  assert (∀ e, all_chars numeric_char (Number.digits e) = true) as Hexp.
  { intros e. apply all_digits_numeric, digits_fuel_all_digits. }
  clearbody n ds.
  destruct (_ && _).
  { by rewrite all_chars_app, !all_digits_numeric by (done || apply all_digits_zeros). }
  destruct (_ && _).
  { destruct (all_digits_take_drop (Z.to_nat n) ds Hds) as [Ht Hd].
    by rewrite !all_chars_app, (all_digits_numeric _ Ht), (all_digits_numeric _ Hd). }
  destruct (_ && _).
  { by rewrite !all_chars_app, (all_digits_numeric _ (all_digits_zeros _)),
      (all_digits_numeric _ Hds). }
  destruct ds as [|d rest]; [done|].
  cbn [all_digits] in Hds. apply andb_true_iff in Hds as [Hd Hrest].
  assert (numeric_char d = true) as Hnum by (unfold numeric_char; by rewrite Hd).
  destruct rest as [|d2 rest]; cbn [all_chars]; rewrite Hnum, !all_chars_app, Hexp.
  - by destruct (_ <? 0).
  - rewrite (all_digits_numeric _ Hrest). by destruct (_ <? 0).
Qed.

Lemma to_string_numeric (x : number) :
  all_chars numeric_char (Number.to_string x) = true.
Proof.
  destruct x as [|m s]; [done|]. unfold Number.to_string.
  destruct (m =? 0); [done|]. destruct (m <? 0).
  - by rewrite all_chars_app, positive_to_string_numeric.
  - apply positive_to_string_numeric.
Qed.

(** No keyword of the scorer or the recommender starts inside a number. *)
Lemma numeric_char_no_initial (c : ascii) :
  numeric_char c = true →
  Ascii.eqb "c" (JsString.lower_char c) = false ∧
  Ascii.eqb "r" (JsString.lower_char c) = false ∧
  Ascii.eqb "s" (JsString.lower_char c) = false.
Proof. destruct c as [[] [] [] [] [] [] [] []]; by vm_compute. Qed.

Lemma number_no_initial (x : number) :
  occurs "c" (JsString.toLowerCase (Number.to_string x)) = false ∧
  occurs "r" (JsString.toLowerCase (Number.to_string x)) = false ∧
  occurs "s" (JsString.toLowerCase (Number.to_string x)) = false.
Proof.
  pose proof (to_string_numeric x) as H.
  induction (Number.to_string x) as [|c s IH]; [done|].
  cbn [all_chars] in H. apply andb_true_iff in H as [Hc Hs].
  destruct (IH Hs) as (IH1 & IH2 & IH3).
  destruct (numeric_char_no_initial c Hc) as (H1 & H2 & H3).
  cbn [JsString.toLowerCase occurs]. by rewrite H1, H2, H3, IH1, IH2, IH3.
Qed.

(** A keyword that starts with [c], [r] or [s] and holds none of the
    characters around the condition is found in the summary exactly when it
    is found in the condition. *)
Lemma summary_includes (k0 : ascii) (kw : string) (temperature : number)
    (condition : string) (humidity : number) :
  k0 = "c"%char ∨ k0 = "r"%char ∨ k0 = "s"%char →
  occurs "194" (String k0 kw) = false → occurs "," (String k0 kw) = false →
  occurs " " (String k0 kw) = false → occurs "%" (String k0 kw) = false →
  JsString.includes (String "176" "c") (String k0 kw) = false →
  JsString.includes "humidity" (String k0 kw) = false →
  JsString.includes
    (JsString.toLowerCase (weather_summary temperature condition humidity))
    (String k0 kw)
  = JsString.includes (JsString.toLowerCase condition) (String k0 kw).
Proof.
  intros Hk0 Hdeg Hcomma Hspace Hpercent Hunit Hword.
  assert (∀ x, JsString.includes (JsString.toLowerCase (Number.to_string x))
                 (String k0 kw) = false) as Hnumber.
  { intros x. apply includes_absent.
    destruct (number_no_initial x) as (H1 & H2 & H3).
    by destruct Hk0 as [-> | [-> | ->]]. }
  unfold weather_summary. rewrite !toLowerCase_app.
  change (JsString.toLowerCase "°C, " +:+ ?r)
    with (String "194" (String "176" "c" +:+ String "," (EmptyString +:+ String " " r))).
  change (JsString.toLowerCase ", " +:+ ?r)
    with (String "," (EmptyString +:+ String " " r)).
  change (JsString.toLowerCase "% humidity")
    with (String "%" (EmptyString +:+ String " " "humidity")).
  rewrite !includes_sep by done.
  rewrite !Hnumber, Hunit, Hword.
  cbn [JsString.includes JsString.startsWith orb].
  by rewrite !orb_false_r.
Qed.

(** X8. Searching the whole summary for "clear", "rain" or "cloud" finds
    the keyword exactly when the condition holds it: the rendered
    temperature and humidity and the fixed text around them never contain or
    complete a keyword, whatever the numbers are. *)
Theorem summary_keywords_from_condition (w : CityWeather.t) :
  let summary :=
    JsString.toLowerCase
      (ActivityRecommendation.weatherSummary (generateActivityRecommendations w)) in
  let condition := JsString.toLowerCase (CityWeather.condition w) in
  Forall (λ kw, JsString.includes summary kw = JsString.includes condition kw)
    ["clear"; "rain"; "cloud"; "sunny"] ∧
  Spec.condition_adjustment
    (ActivityRecommendation.weatherSummary (generateActivityRecommendations w))
  = Spec.condition_adjustment (CityWeather.condition w).
Proof.
  cbn zeta. cbn [generateActivityRecommendations ActivityRecommendation.weatherSummary].
  assert (Forall
            (λ kw, JsString.includes
                     (JsString.toLowerCase
                        (weather_summary (CityWeather.temperature w)
                           (CityWeather.condition w) (CityWeather.humidity w))) kw
                   = JsString.includes (JsString.toLowerCase (CityWeather.condition w)) kw)
            ["clear"; "rain"; "cloud"; "sunny"]) as Hall.
  { repeat (constructor; [apply summary_includes; (done || tauto)|]). constructor. }
  split; [exact Hall|].
  unfold Spec.condition_adjustment, Spec.condition_keywords. cbn [find fst snd].
  rewrite !Forall_cons in Hall. destruct Hall as (-> & -> & -> & _). done.
Qed.

(** ** The score of a recommended city *)

Lemma summary_parsed_temperature (temperature : number) (condition : string)
    (humidity : number) :
  Spec.plain_notation (Number.to_string temperature) = true →
  parsed_temperature (weather_summary temperature condition humidity)
  = Number.norm temperature.
Proof.
  intros Hplain. rewrite parsed_temperature_spec.
  unfold Spec.extracted_temperature, weather_summary.
  change ("°C, " +:+ ?x) with (String "194" (String "176" ("C, " +:+ x))).
  rewrite first_number_prefix by done. by apply to_string_roundtrip.
Qed.

Lemma summary_condition_adjustment (temperature : number) (condition : string)
    (humidity : number) :
  Spec.condition_adjustment (weather_summary temperature condition humidity)
  = Spec.condition_adjustment condition.
Proof.
  unfold Spec.condition_adjustment, Spec.condition_keywords. cbn [find fst snd].
  by rewrite !summary_includes by (done || tauto).
Qed.

(** X9. For a temperature rendered in plain notation, the score of the
    recommended city is 50 plus the adjustment of that temperature plus the
    adjustment of the first keyword in the condition: the city name and the
    humidity have no influence on it. *)
Theorem pipeline_score (w : CityWeather.t) :
  Spec.plain_notation (Number.to_string (CityWeather.temperature w)) = true →
  ScoredCity.score (scoreCity (generateActivityRecommendations w))
  = 50 + Spec.temperature_adjustment (CityWeather.temperature w)
       + Spec.condition_adjustment (CityWeather.condition w).
Proof.
  intros Hplain. rewrite scoreCity_score. unfold Spec.score.
  cbn [generateActivityRecommendations ActivityRecommendation.weatherSummary].
  rewrite <- parsed_temperature_spec, summary_parsed_temperature by done.
  by rewrite temperature_adjustment_norm, summary_condition_adjustment.
Qed.

Lemma pipeline_score_witness :
  ScoredCity.score
    (scoreCity (generateActivityRecommendations
       {| CityWeather.city := "Cairo"; CityWeather.temperature := Dec 365 1;
          CityWeather.condition := "Clear sky"; CityWeather.humidity := Dec 18 0 |}))
  = 50.
Proof.
  rewrite (pipeline_score
    {| CityWeather.city := "Cairo"; CityWeather.temperature := Dec 365 1;
       CityWeather.condition := "Clear sky"; CityWeather.humidity := Dec 18 0 |}).
  - reflexivity.
  - reflexivity.
Defined.

(** ** The decoder on every number *)

Lemma normalize_scaled (c : Z) (s : nat) :
  Number.normalize (c * 10 ^ Z.of_nat s) s = (c, O).
Proof.
  induction s as [|s IH].
  - cbn [Number.normalize]. change (10 ^ Z.of_nat 0) with 1. by rewrite Z.mul_1_r.
  - cbn [Number.normalize]. rewrite Nat2Z.inj_succ, Z.pow_succ_r by lia.
    replace (c * (10 * 10 ^ Z.of_nat s)) with (c * 10 ^ Z.of_nat s * 10) by lia.
    rewrite Z.mod_mul, Z.div_mul by lia. exact IH.
Qed.

Lemma positive_to_string_scaled (c : Z) (s : nat) :
  Number.positive_to_string (c * 10 ^ Z.of_nat s) s = Number.positive_to_string c O.
Proof. unfold Number.positive_to_string. by rewrite normalize_scaled. Qed.

(** A number equal to an integer is rendered as that integer. *)
Lemma to_string_integer (x : number) (c : Z) :
  Number.eqb x (Number.of_Z c) = true →
  Number.to_string x = Number.to_string (Number.of_Z c).
Proof.
  destruct x as [|m s]; [done|]. unfold Number.eqb. rewrite compare_of_Z.
  destruct (Z.compare_spec m (c * 10 ^ Z.of_nat s)) as [->| |]; [intros _|done..].
  assert (0 < 10 ^ Z.of_nat s) as Hpow by (apply Z.pow_pos_nonneg; lia).
  unfold Number.to_string, Number.of_Z.
  replace (c * 10 ^ Z.of_nat s =? 0) with (c =? 0)
    by (destruct (Z.eqb_spec c 0), (Z.eqb_spec (c * 10 ^ Z.of_nat s) 0); (done || nia)).
  replace (c * 10 ^ Z.of_nat s <? 0) with (c <? 0)
    by (destruct (Z.ltb_spec c 0), (Z.ltb_spec (c * 10 ^ Z.of_nat s) 0); (done || nia)).
  rewrite <- Z.mul_opp_l. by rewrite !positive_to_string_scaled.
Qed.

(** X12. On every number, whole or not, the decoder answers by value: the
    label of the table code the number equals, and "Unknown" when it equals
    none (a fraction, a code off the table, [NaN]); the answer is never the
    empty string. *)
Theorem decoder_by_value (x : number) :
  match List.find (λ code, Number.eqb x (Number.of_Z code)) Spec.table_codes with
  | Some code =>
      getWeatherCondition x = Spec.table_label code ∧ Spec.table_label code ≠ "Unknown"
  | None => getWeatherCondition x = "Unknown"
  end ∧
  getWeatherCondition x ≠ "" ∧
  getWeatherCondition NaN = "Unknown".
Proof.
  assert (match List.find (λ code, Number.eqb x (Number.of_Z code)) Spec.table_codes with
          | Some code =>
              getWeatherCondition x = Spec.table_label code ∧
              Spec.table_label code ≠ "Unknown" ∧ Spec.table_label code ≠ ""
          | None => getWeatherCondition x = "Unknown"
          end) as Hfind.
  { destruct (List.find _ _) as [code|] eqn:E.
    - apply find_some in E as [Hin Heq]. unfold getWeatherCondition.
      rewrite (to_string_integer x code Heq).
      unfold Spec.table_codes in Hin. cbn [In] in Hin.
      repeat destruct Hin as [<- | Hin]; try done.
    - apply decoder_unknown, Forall_forall. intros code Hin.
      apply list_elem_of_In in Hin. exact (find_none _ _ E code Hin). }
  split; [|split; [|done]].
  - destruct (List.find _ _); [|done]. by destruct Hfind as (? & ? & _).
  - destruct (List.find _ _).
    + destruct Hfind as (-> & _ & ?). done.
    + by rewrite Hfind.
Qed.

(** ** The ranking and the order of the input *)

Lemma sorted_scores_unique (l1 l2 : list ScoredCity.t) :
  StronglySorted descending l1 → StronglySorted descending l2 →
  l1 ≡ₚ l2 → NoDup (ScoredCity.score <$> l1) → l1 = l2.
Proof.
  revert l2. induction l1 as [|x l1 IH]; intros l2 Hs1 Hs2 Hperm Hnodup.
  { by apply Permutation_nil_l in Hperm. }
  destruct l2 as [|y l2]; [by apply Permutation_nil_r in Hperm|].
  apply StronglySorted_cons in Hs1 as [Hx Hs1].
  apply StronglySorted_cons in Hs2 as [Hy Hs2].
  rewrite fmap_cons in Hnodup. apply NoDup_cons in Hnodup as [Hfresh Hnodup].
  assert (x = y) as ->.
  { assert (x ∈ y :: l2) as Hin1 by (rewrite <- Hperm; left).
    assert (y ∈ x :: l1) as Hin2 by (rewrite Hperm; left).
    apply elem_of_cons in Hin1 as [?|Hin1]; [done|].
    apply elem_of_cons in Hin2 as [?|Hin2]; [done|].
    rewrite Forall_forall in Hx, Hy.
    specialize (Hx y Hin2). specialize (Hy x Hin1). unfold descending in *.
    exfalso. apply Hfresh. replace (ScoredCity.score x) with (ScoredCity.score y) by lia.
    by apply list_elem_of_fmap_2. }
  f_equal. apply IH; try done. by apply Permutation_cons_inv in Hperm.
Qed.

(** X13. The order in which the recommendations arrive matters for ties
    only: two orderings of the same records give rankings with the same
    entries and the same best score, and when no two records have the same
    score they give the very same report. *)
Theorem ranking_order_independent (recs1 recs2 : list ActivityRecommendation.t) :
  recs1 ≡ₚ recs2 →
  match findBestDestination recs1, findBestDestination recs2 with
  | Ok r1, Ok r2 =>
      Report.allCities r1 ≡ₚ Report.allCities r2 ∧
      (ScoredCity.score <$> head (Report.allCities r1))
      = (ScoredCity.score <$> head (Report.allCities r2))
  | Err e1, Err e2 => e1 = e2 ∧ recs1 = [] ∧ recs2 = []
  | _, _ => False
  end ∧
  (NoDup (ScoredCity.score <$> (scoreCity <$> recs1)) →
   findBestDestination recs1 = findBestDestination recs2).
Proof.
  intros Hperm.
  assert (sort by_score_descending (scoreCity <$> recs1)
          ≡ₚ sort by_score_descending (scoreCity <$> recs2)) as Hsorted.
  { by rewrite !sort_Permutation, Hperm. }
  pose proof (sort_by_score_sorted (scoreCity <$> recs1)) as Hs1.
  pose proof (sort_by_score_sorted (scoreCity <$> recs2)) as Hs2.
  split.
  - unfold findBestDestination.
    pose proof (sort_Permutation by_score_descending (scoreCity <$> recs1)) as Hp1.
    pose proof (sort_Permutation by_score_descending (scoreCity <$> recs2)) as Hp2.
    destruct (sort by_score_descending (scoreCity <$> recs1)) as [|x l1],
             (sort by_score_descending (scoreCity <$> recs2)) as [|y l2].
    + apply Permutation_nil_l in Hp1, Hp2. by destruct recs1, recs2.
    + by apply Permutation_nil_l in Hsorted.
    + by apply Permutation_nil_r in Hsorted.
    + cbn [lookup list_lookup Report.allCities head fmap option_fmap option_map].
      split; [done|]. f_equal.
      apply StronglySorted_cons in Hs1 as [Hx _].
      apply StronglySorted_cons in Hs2 as [Hy _].
      assert (x ∈ y :: l2) as Hin1 by (rewrite <- Hsorted; left).
      assert (y ∈ x :: l1) as Hin2 by (rewrite Hsorted; left).
      rewrite Forall_forall in Hx, Hy. unfold descending in *.
      apply elem_of_cons in Hin1 as [->|Hin1]; [done|].
      apply elem_of_cons in Hin2 as [->|Hin2]; [done|].
      specialize (Hx y Hin2). specialize (Hy x Hin1). lia.
  - intros Hnodup. unfold findBestDestination.
    rewrite (sorted_scores_unique _ _ Hs1 Hs2 Hsorted); [done|].
    by rewrite sort_Permutation.
Qed.

Lemma ranking_order_independent_witness :
  findBestDestination
    [ {| ActivityRecommendation.city := "Tokyo"; ActivityRecommendation.activities := [];
         ActivityRecommendation.weatherSummary := "20°C, Heavy rain, 80% humidity" |};
      {| ActivityRecommendation.city := "Paris"; ActivityRecommendation.activities := [];
         ActivityRecommendation.weatherSummary := "20°C, Clear sky, 50% humidity" |} ]
  = findBestDestination
    [ {| ActivityRecommendation.city := "Paris"; ActivityRecommendation.activities := [];
         ActivityRecommendation.weatherSummary := "20°C, Clear sky, 50% humidity" |};
      {| ActivityRecommendation.city := "Tokyo"; ActivityRecommendation.activities := [];
         ActivityRecommendation.weatherSummary := "20°C, Heavy rain, 80% humidity" |} ].
Proof.
  apply (ranking_order_independent
    [ {| ActivityRecommendation.city := "Tokyo"; ActivityRecommendation.activities := [];
         ActivityRecommendation.weatherSummary := "20°C, Heavy rain, 80% humidity" |};
      {| ActivityRecommendation.city := "Paris"; ActivityRecommendation.activities := [];
         ActivityRecommendation.weatherSummary := "20°C, Clear sky, 50% humidity" |} ]).
  - apply Permutation_swap.
  - apply (bool_decide_unpack _). by vm_compute.
Defined.

(** ** The report *)

(** X14. The parts of a report belong together: the best city, the summary
    and the activity quoted in the reason all come from one input record,
    the one whose scored entry heads the ranking. *)
Theorem report_reason_consistent (recs : list ActivityRecommendation.t) :
  match findBestDestination recs with
  | Ok report =>
      ∃ rec, rec ∈ recs ∧
        head (Report.allCities report) = Some (scoreCity rec) ∧
        Report.bestCity report = ActivityRecommendation.city rec ∧
        Report.reason report =
          ActivityRecommendation.city rec +:+ " has the best weather conditions with " +:+
          ActivityRecommendation.weatherSummary rec +:+ ". Top recommended activity: " +:+
          ScoredCity.topActivity (scoreCity rec)
  | Err _ => recs = []
  end.
Proof.
  unfold findBestDestination.
  pose proof (sort_Permutation by_score_descending (scoreCity <$> recs)) as Hperm.
  destruct (sort by_score_descending (scoreCity <$> recs)) as [|best rest].
  - apply Permutation_nil_l in Hperm. by destruct recs.
  - cbn [lookup list_lookup].
    assert (best ∈ scoreCity <$> recs) as Hin by (rewrite <- Hperm; left).
    apply list_elem_of_fmap in Hin as (rec & -> & Hrec).
    by exists rec.
Qed.

(** ** The forecast URL *)

(** Two texts over an alphabet, each followed by a character outside it, are
    equal when the whole strings are. *)
Lemma split_at_foreign (P : ascii → bool) (x : ascii) (a a' b b' : string) :
  all_chars P a = true → all_chars P a' = true → P x = false →
  a +:+ String x b = a' +:+ String x b' → a = a' ∧ b = b'.
Proof.
  intros Ha Ha' Hx. revert a' Ha'. induction a as [|c a IH]; intros [|c' a'] Ha' H.
  - by injection H as ->.
  - rewrite append_nil_l, append_cons in H. injection H as <- _.
    cbn [all_chars] in Ha'. apply andb_true_iff in Ha' as [? _]. congruence.
  - rewrite append_nil_l, append_cons in H. injection H as -> _.
    cbn [all_chars] in Ha. apply andb_true_iff in Ha as [? _]. congruence.
  - rewrite !append_cons in H. injection H as -> H.
    cbn [all_chars] in Ha, Ha'.
    apply andb_true_iff in Ha as [_ Ha]. apply andb_true_iff in Ha' as [_ Ha'].
    destruct (IH Ha a' Ha' H) as [-> ->]. done.
Qed.

Lemma to_string_plain_inj (x y : number) :
  Spec.plain_notation (Number.to_string x) = true →
  Number.to_string x = Number.to_string y → Number.eqb x y = true.
Proof.
  intros Hx Heq. pose proof (to_string_roundtrip x Hx) as Hrx.
  assert (x ≠ NaN) as Hnan by (by intros ->).
  rewrite Heq in Hx, Hrx. rewrite (to_string_roundtrip y Hx) in Hrx.
  unfold Number.eqb. rewrite <- compare_norm_l, <- (compare_norm_r y), Hrx.
  rewrite compare_norm_l, compare_norm_r.
  destruct x as [|m s]; [done|]. unfold Number.compare. by rewrite Z.compare_refl.
Qed.

(** X15. The forecast URL determines the coordinates it was built from:
    for coordinates rendered in plain notation, two requests have the same
    URL only when latitude and longitude are equal as numbers. *)
Theorem weatherUrl_inj (latitude1 longitude1 latitude2 longitude2 : number) :
  Spec.plain_notation (Number.to_string latitude1) = true →
  Spec.plain_notation (Number.to_string longitude1) = true →
  weatherUrl latitude1 longitude1 = weatherUrl latitude2 longitude2 →
  Number.eqb latitude1 latitude2 = true ∧ Number.eqb longitude1 longitude2 = true.
Proof.
  intros Hlat Hlon H. unfold weatherUrl in H. apply String.app_inj in H.
  change ("&longitude=" +:+ ?r) with (String "&" ("longitude=" +:+ r)) in H.
  apply (split_at_foreign numeric_char) in H as [Hlat_eq H];
    [|apply to_string_numeric..|done].
  apply String.app_inj in H.
  change ("&current=temperature_2m,relative_humidity_2m,weathercode")
    with (String "&" "current=temperature_2m,relative_humidity_2m,weathercode") in H.
  apply (split_at_foreign numeric_char) in H as [Hlon_eq _];
    [|apply to_string_numeric..|done].
  split; by apply to_string_plain_inj.
Qed.

Lemma weatherUrl_inj_witness :
  Number.eqb (Dec 4885 2) (Dec 4885 2) = true ∧ Number.eqb (Dec 235 2) (Dec 235 2) = true.
Proof.
  apply (weatherUrl_inj (Dec 4885 2) (Dec 235 2) (Dec 4885 2) (Dec 235 2));
    reflexivity.
Defined.
